(** * QCodeEditor: diagnostic spans, gutter markers and line numbers

    A shallow embedding of the parts of QCodeEditor that carry logic of
    their own:

    - [QCodeEditor::InternalSpan] (include/internal/QCodeEditor.hpp), the
      closed interval stored in the diagnostic interval tree;
    - [QLineNumberArea] (src/internal/QLineNumberArea.cpp): the per-line
      diagnostic markers, the gutter width, the font weight mapping and
      the paint loop that draws the line numbers.

    C++ [int] is a 32-bit two's-complement integer.  It is modelled as a
    [Z] together with the range predicate [Int.in_range]; arithmetic that
    can leave the range goes through [Int.wrap]. *)

From Stdlib Require Import ZArith Lia Bool List Ascii String Sorted.
From Equations Require Import Equations.
From stdpp Require Import gmap strings list.

Local Open Scope Z_scope.

(** * Part I: the program *)

(** ** C++ [int] *)

Module Int.

Definition INT_MIN : Z := -2147483648.
Definition INT_MAX : Z := 2147483647.

Definition in_range (z : Z) : Prop := INT_MIN <= z <= INT_MAX.

(** Reduction of a mathematical integer to the 32-bit signed range. *)
Definition wrap (z : Z) : Z := (z + 2147483648) mod 4294967296 - 2147483648.

Definition add (a b : Z) : Z := wrap (a + b).
Definition sub (a b : Z) : Z := wrap (a - b).
Definition mul (a b : Z) : Z := wrap (a * b).

End Int.

(** ** [QCodeEditor::InternalSpan] *)

Module InternalSpan.

(** [struct InternalSpan]: the private bounds [low_], [high_] and the
    public [diagIndex]. *)
Record t : Type := mk { low_ : Z; high_ : Z; diagIndex : Z }.

(** The constructor's [assert(low <= high)]. *)
Definition valid (a : t) : Prop := low_ a <= high_ a.

(** The fields are C++ [int]s. *)
Definition representable (a : t) : Prop :=
  Int.in_range (low_ a) /\ Int.in_range (high_ a) /\ Int.in_range (diagIndex a).

(** [operator==] *)
Definition op_eq (lhs other : t) : bool :=
  (low_ lhs =? low_ other) && (high_ lhs =? high_ other).

(** [operator!=] *)
Definition op_ne (lhs other : t) : bool :=
  negb (low_ lhs =? low_ other) || negb (high_ lhs =? high_ other).

Definition low (a : t) : Z := low_ a.
Definition high (a : t) : Z := high_ a.

(** [overlaps(value_type l, value_type h)] *)
Definition overlaps (a : t) (l h : Z) : bool :=
  (low_ a <=? h) && (l <=? high_ a).

(** [overlaps_exclusive(value_type l, value_type h)] *)
Definition overlaps_exclusive (a : t) (l h : Z) : bool :=
  (low_ a <? h) && (l <? high_ a).

(** [overlaps(InternalSpan const &other)] *)
Definition overlaps_other (a other : t) : bool :=
  overlaps a (low_ other) (high_ other).

(** [overlaps_exclusive(InternalSpan const &other)] *)
Definition overlaps_exclusive_other (a other : t) : bool :=
  overlaps_exclusive a (low_ other) (high_ other).

(** [within(InternalSpan const &other)] *)
Definition within_other (a other : t) : bool :=
  (low_ a <=? low_ other) && (high_ a >=? high_ other).

(** [operator-]: the distance between two spans, in [int] arithmetic. *)
Definition op_sub (a other : t) : Z :=
  if overlaps_other a other then 0
  else if high_ a <? low_ other then Int.sub (low_ other) (high_ a)
  else Int.sub (low_ a) (high_ other).

(** [size()] *)
Definition size (a : t) : Z := Int.sub (high_ a) (low_ a).

(** [join]: the brace initialiser leaves [diagIndex] at its default 0. *)
Definition join (a other : t) : t :=
  mk (Z.min (low_ a) (low_ other)) (Z.max (high_ a) (high_ other)) 0.

(** The mathematical gap between two spans: positive exactly when one
    of them lies entirely on one side of the other. *)
Definition gap (a b : t) : Z := Z.max (low b - high a) (low a - high b).

(** What the documentation of [operator-] promises for a pair of spans. *)
Definition distance_law (a b : t) : Prop :=
  (op_sub a b = 0 <-> overlaps_other a b = true) /\
  (overlaps_other a b = false ->
     0 < op_sub a b /\
     (high a < low b -> op_sub a b = low b - high a) /\
     (high b < low a -> op_sub a b = low a - high b)).

End InternalSpan.

(** ** [QCodeEditor::DiagnosticSeverity] *)

(** [enum class DiagnosticSeverity { Hint, Information, Warning, Error }];
    the header notes that the order is "the bigger the more important". *)
Inductive DiagnosticSeverity : Type :=
| Hint
| Information
| Warning
| Error.

Module Severity.

(** The enumerators' underlying values, in declaration order. *)
Definition to_int (s : DiagnosticSeverity) : Z :=
  match s with
  | Hint => 0
  | Information => 1
  | Warning => 2
  | Error => 3
  end.

(** The built-in [<] of a scoped enumeration compares underlying values. *)
Definition ltb (a b : DiagnosticSeverity) : bool := to_int a <? to_int b.

Definition le (a b : DiagnosticSeverity) : Prop := to_int a <= to_int b.

(** Qt's [qMax(a, b)] is [(a < b) ? b : a]. *)
Definition qMax (a b : DiagnosticSeverity) : DiagnosticSeverity :=
  if ltb a b then b else a.

(** The larger of two severities in the order
    [Hint < Information < Warning < Error], written out case by case. *)
Definition max_severity (a b : DiagnosticSeverity) : DiagnosticSeverity :=
  match a, b with
  | Error, _ | _, Error => Error
  | Warning, _ | _, Warning => Warning
  | Information, _ | _, Information => Information
  | Hint, Hint => Hint
  end.

End Severity.

(** ** [QFont::Weight] *)

(** The host toolkit's enumeration of font weights, in declaration order. *)
Inductive QFontWeight : Type :=
| Thin
| ExtraLight
| Light
| Normal
| Medium
| DemiBold
| Bold
| ExtraBold
| Black.

Module Weight.

(** Enumerator values of Qt 5. *)
Definition to_int_qt5 (w : QFontWeight) : Z :=
  match w with
  | Thin => 0
  | ExtraLight => 12
  | Light => 25
  | Normal => 50
  | Medium => 57
  | DemiBold => 63
  | Bold => 75
  | ExtraBold => 81
  | Black => 87
  end.

(** Enumerator values of Qt 6. *)
Definition to_int_qt6 (w : QFontWeight) : Z :=
  match w with
  | Thin => 100
  | ExtraLight => 200
  | Light => 300
  | Normal => 400
  | Medium => 500
  | DemiBold => 600
  | Bold => 700
  | ExtraBold => 800
  | Black => 900
  end.

(** Both versions order the enumerators the same way, so [<=] on weights
    does not depend on the toolkit version. *)
Definition le (a b : QFontWeight) : Prop := to_int_qt5 a <= to_int_qt5 b.

End Weight.

(** ** [QString::number] *)

Module QString.

(** The character ['0' + d]. *)
Definition digit_char (d : Z) : ascii := ascii_of_nat (48 + Z.to_nat d).

(** The value of a decimal digit character. *)
Definition digit_value (c : ascii) : Z := Z.of_nat (nat_of_ascii c) - 48.

(** The usual conversion loop: emit [n % 10] in front of what is already
    there, divide by 10, stop when nothing is left. *)
Fixpoint digits_of (fuel : nat) (n : Z) (acc : string) : string :=
  match fuel with
  | O => acc
  | S fuel' =>
      let acc' := String (digit_char (n mod 10)) acc in
      if n / 10 =? 0 then acc' else digits_of fuel' (n / 10) acc'
  end.

(** Decimal digits of a non-negative number.  A number below [2^k] has at
    most [k] decimal digits, so [log2 n + 1] rounds are enough. *)
Definition unsigned_number (n : Z) : string :=
  digits_of (S (Z.to_nat (Z.log2 n))) n EmptyString.

(** [QString::number(int n)] in base 10: a minus sign for negative
    numbers, then the digits of the magnitude. *)
Definition number (n : Z) : string :=
  if n <? 0 then String "-"%char (unsigned_number (- n)) else unsigned_number n.

(** Reading a digit string back: the pair of its value and of [10] to the
    power of its length. *)
Fixpoint eval_digits (s : string) : Z * Z :=
  match s with
  | EmptyString => (0, 1)
  | String c s' =>
      let '(v, p) := eval_digits s' in (digit_value c * p + v, 10 * p)
  end.

(** The integer a decimal string denotes. *)
Definition value (s : string) : Z :=
  match s with
  | String "-"%char s' => - fst (eval_digits s')
  | _ => fst (eval_digits s)
  end.

(** [d] is the number of decimal digits of the positive number [n]. *)
Definition decimal_digits (n d : Z) : Prop :=
  1 <= d /\ 10 ^ (d - 1) <= n < 10 ^ d.

End QString.

(** ** [QLineNumberArea] *)

Module QLineNumberArea.

(** What [updateEditorLineCount] reads from the parent editor: the
    document's block count and the font's horizontal advance of ['9']. *)
Record ParentView : Type := mkParent {
  blockCount : Z;
  advance9 : Z
}.

(** Modelled from the spec: the class declaration with the members of
    [QLineNumberArea] (include/internal/QLineNumberArea.hpp) is missing.
    QLineNumberArea.cpp uses [m_diagnosticMarkers] through [find],
    [insert], [contains], [operator[]] and [clear] with [int] keys: a
    finite map from line to severity.  Besides it the gutter's state holds
    the width fixed by [setFixedWidth] and whether [update()] has asked
    for a repaint. *)
Record t : Type := mk {
  m_diagnosticMarkers : gmap Z DiagnosticSeverity;
  fixedWidth : option Z;
  updateRequested : bool
}.

Definition update (g : t) : t :=
  mk (m_diagnosticMarkers g) (fixedWidth g) true.

Definition setFixedWidth (w : Z) (g : t) : t :=
  mk (m_diagnosticMarkers g) (Some w) (updateRequested g).

(** The body of the loop in [addDiagnosticMarker]: [find], then either
    [insert] or the assignment through the iterator. *)
Definition mark_line (severity : DiagnosticSeverity) (i : Z)
    (m : gmap Z DiagnosticSeverity) : gmap Z DiagnosticSeverity :=
  match m !! i with
  | None => <[i := severity]> m
  | Some j => <[i := Severity.qMax j severity]> m
  end.

(** [for (int i = startLine; i < endLine; ++i)], entered at [i].  Inside
    the loop [i < endLine <= INT_MAX], so [++i] stays in range. *)
Equations? marker_loop (severity : DiagnosticSeverity) (i endLine : Z)
    (m : gmap Z DiagnosticSeverity) : gmap Z DiagnosticSeverity
    by wf (Z.to_nat (endLine - i)) lt :=
  marker_loop severity i endLine m with Z_lt_dec i endLine := {
    | left _ => marker_loop severity (i + 1) endLine (mark_line severity i m)
    | right _ => m
  }.
Proof. lia. Qed.

(** [addDiagnosticMarker(severity, startLine, endLine)] *)
Definition addDiagnosticMarker (severity : DiagnosticSeverity)
    (startLine endLine : Z) (g : t) : t :=
  update (mk (marker_loop severity startLine endLine (m_diagnosticMarkers g))
             (fixedWidth g) (updateRequested g)).

(** [clearDiagnosticMarkers()] *)
Definition clearDiagnosticMarkers (g : t) : t :=
  update (mk ∅ (fixedWidth g) (updateRequested g)).

(** [updateEditorLineCount()]; the argument is [m_codeEditParent], absent
    when the pointer is null. *)
Definition updateEditorLineCount (m_codeEditParent : option ParentView)
    (g : t) : t :=
  match m_codeEditParent with
  | None => g
  | Some parent =>
      let digits :=
        Z.of_nat (String.length (QString.number (blockCount parent))) in
      let space := Int.add 15 (Int.mul (advance9 parent) digits) in
      setFixedWidth space g
  end.

(** [intToFontWeight(int v)] *)
Definition intToFontWeight (v : Z) : QFontWeight :=
  if v <=? 100 then Thin
  else if v <=? 200 then ExtraLight
  else if v <=? 300 then Light
  else if v <=? 400 then Normal
  else if v <=? 500 then Medium
  else if v <=? 600 then DemiBold
  else if v <=? 700 then Bold
  else if v <=? 800 then Bold
  else if v <=? 900 then ExtraBold
  else Black.

(** *** [paintEvent]

    The document is the list of its text blocks, in order.  Of a block the
    paint loop reads whether it is visible and the height of its bounding
    rectangle, already truncated to [int] by the cast in the source. *)
Record Block : Type := mkBlock {
  isVisible : bool;
  height : Z
}.

(** What the painter is asked to do. *)
Inductive PaintCmd : Type :=
| FillBackground (top bottom : Z)
| SetClipBottom (bottom : Z)
| FillMarker (top lineHeight : Z) (severity : DiagnosticSeverity)
| SetPen (currentLine : bool)
| SetFont (currentLine : bool)
| DrawText (x top lineWidth lineHeight : Z) (number : string).

(** What [paintEvent] reads from the event, the editor and the widget. *)
Record PaintInput : Type := mkPaintInput {
  dirtyTop : Z;
  dirtyBottom : Z;
  viewportBottom : Z;
  (** index of [getFirstVisibleBlock()] in the document *)
  firstVisibleBlock : nat;
  (** top of that block's rectangle, after the scroll translation *)
  firstTop : Z;
  lineWidth : Z;
  lineHeight : Z;
  (** [textCursor().blockNumber()] *)
  cursorBlockNumber : Z
}.

(** [QTextBlock::blockNumber()]: the position of a valid block, -1 for an
    invalid one. *)
Definition blockNumber_of (doc : list Block) (block : nat) : Z :=
  match doc !! block with
  | Some _ => Z.of_nat block
  | None => -1
  end.

(** Height of the bounding rectangle of the block at the head of [rest];
    an invalid block has an empty rectangle. *)
Definition head_height (rest : list Block) : Z :=
  match rest with
  | [] => 0
  | b :: _ => height b
  end.

(** The body of the inner [if]: the marker, the pen, and the number. *)
Definition paint_block (g : t) (inp : PaintInput) (blockNumber top : Z)
    : list PaintCmd :=
  let number := QString.number (Int.add blockNumber 1) in
  let marker :=
    match m_diagnosticMarkers g !! blockNumber with
    | Some severity => [FillMarker top (lineHeight inp) severity]
    | None => []
    end in
  let isCurrentLine := cursorBlockNumber inp =? blockNumber in
  let text := DrawText (-5) top (lineWidth inp) (lineHeight inp) number in
  marker ++ SetPen isCurrentLine ::
    (if isCurrentLine then [SetFont true; text; SetFont false] else [text]).

(** [while (block.isValid() && top <= dirtyBottom)].  [rest] holds the
    blocks from [block] to the end of the document, so [block] is valid
    exactly when [rest] is not empty; [blockNumber] is the loop's own
    counter.  Each painted block is reported with its position in the
    document and the commands issued for it. *)
Fixpoint paint_loop (g : t) (inp : PaintInput) (rest : list Block)
    (block : nat) (blockNumber top bottom : Z)
    : list (nat * list PaintCmd) :=
  match rest with
  | [] => []
  | b :: rest' =>
      if top <=? dirtyBottom inp then
        (if isVisible b && (bottom >=? dirtyTop inp)
         then [(block, paint_block g inp blockNumber top)]
         else []) ++
        paint_loop g inp rest' (S block) (Int.add blockNumber 1) bottom
          (Int.add bottom (head_height rest'))
      else []
  end.

(** The blocks [paintEvent] paints, from the first visible block on. *)
Definition painted_blocks (g : t) (doc : list Block) (inp : PaintInput)
    : list (nat * list PaintCmd) :=
  let block := firstVisibleBlock inp in
  let blockNumber := blockNumber_of doc block in
  let top := firstTop inp in
  let bottom := Int.add top (head_height (drop block doc)) in
  paint_loop g inp (drop block doc) block blockNumber top bottom.

(** [paintEvent(QPaintEvent *event)]: everything sent to the painter. *)
Definition paintEvent (g : t) (doc : list Block) (inp : PaintInput)
    : list PaintCmd :=
  FillBackground (dirtyTop inp) (dirtyBottom inp) ::
  (if viewportBottom inp <? dirtyBottom inp
   then [SetClipBottom (viewportBottom inp)] else []) ++
  SetFont false ::
  concat (map snd (painted_blocks g doc inp)).

(** The marker a line carries once a diagnostic of the given severity
    has been added over it. *)
Definition merged (old : option DiagnosticSeverity)
    (severity : DiagnosticSeverity) : DiagnosticSeverity :=
  match old with
  | None => severity
  | Some j => Severity.max_severity j severity
  end.

(** Whether line [k] is one of the lines [addDiagnosticMarker] visits. *)
Definition in_lines (startLine endLine k : Z) : bool :=
  (startLine <=? k) && (k <? endLine).

(** Sum of the heights of a run of blocks. *)
Fixpoint heights_sum (l : list Block) : Z :=
  match l with
  | [] => 0
  | b :: l' => height b + heights_sum l'
  end.

(** Where the top of block [n] lies in the gutter: the top of the first
    visible block plus the heights of the blocks between the two. *)
Definition block_top (doc : list Block) (inp : PaintInput) (n : nat) : Z :=
  firstTop inp +
  heights_sum (take (n - firstVisibleBlock inp)
                    (drop (firstVisibleBlock inp) doc)).

(** The painter keeps a pen and a font; here each is either the one for
    the current line or the one for the other lines.  [drawn_texts] lists
    the texts a run of commands draws, each with the pen and the font in
    force when it is drawn. *)
Fixpoint drawn_texts (pen font : bool) (cmds : list PaintCmd)
    : list (string * bool * bool) :=
  match cmds with
  | [] => []
  | SetPen p :: cmds' => drawn_texts p font cmds'
  | SetFont f :: cmds' => drawn_texts pen f cmds'
  | DrawText _ _ _ _ number :: cmds' =>
      (number, pen, font) :: drawn_texts pen font cmds'
  | _ :: cmds' => drawn_texts pen font cmds'
  end.

(** The pen and the font in force after a run of commands. *)
Fixpoint painter_after (pen font : bool) (cmds : list PaintCmd)
    : bool * bool :=
  match cmds with
  | [] => (pen, font)
  | SetPen p :: cmds' => painter_after p font cmds'
  | SetFont f :: cmds' => painter_after pen f cmds'
  | _ :: cmds' => painter_after pen font cmds'
  end.

End QLineNumberArea.

(** ** [QCodeEditor]: the diagnostic structures *)

Module QCodeEditor.

(** [struct Span]: [start] inclusive, [end] exclusive. *)
Record Span : Type := mkSpan { start : Z; end_ : Z }.

(** [struct Diagnostic] *)
Record Diagnostic : Type := mkDiagnostic {
  severity : DiagnosticSeverity;
  span : Span;
  message : string;
  code : string
}.

End QCodeEditor.

(** * Part II: properties *)

(** ** Arithmetic on [int] *)

Module IntFacts.
Import Int.

Lemma wrap_in_range z : in_range (wrap z).
Proof.
  unfold in_range, wrap, INT_MIN, INT_MAX.
  pose proof (Z.mod_pos_bound (z + 2147483648) 4294967296). lia.
Qed.

Lemma wrap_small z : in_range z -> wrap z = z.
Proof.
  unfold in_range, wrap, INT_MIN, INT_MAX. intros Hz.
  rewrite Z.mod_small by lia. lia.
Qed.

Lemma wrap_zero_iff z :
  - 4294967296 < z < 4294967296 -> (wrap z = 0 <-> z = 0).
Proof.
  intros Hz. split; [|intros ->; reflexivity].
  unfold wrap. intros Hw.
  assert (Hm : (z + 2147483648) mod 4294967296 = 2147483648) by lia.
  destruct (Z_lt_le_dec z (- 2147483648)) as [Hlo|Hlo].
  - replace (z + 2147483648)
      with ((z + 2147483648 + 4294967296) + (-1) * 4294967296) in Hm by lia.
    rewrite Z.mod_add, Z.mod_small in Hm by lia. lia.
  - destruct (Z_lt_le_dec z 2147483648) as [Hhi|Hhi].
    + rewrite Z.mod_small in Hm by lia. lia.
    + replace (z + 2147483648)
        with ((z - 2147483648) + 1 * 4294967296) in Hm by lia.
      rewrite Z.mod_add, Z.mod_small in Hm by lia. lia.
Qed.

End IntFacts.

(** ** Spans *)

Module InternalSpanSpec.
Import InternalSpan.

Lemma overlaps_true_iff (a : t) (l h : Z) :
  overlaps a l h = true <-> low a <= h /\ l <= high a.
Proof.
  unfold overlaps, low, high.
  rewrite andb_true_iff, !Z.leb_le. reflexivity.
Qed.

Lemma overlaps_false_iff (a : t) (l h : Z) :
  overlaps a l h = false <-> h < low a \/ high a < l.
Proof.
  unfold overlaps, low, high.
  rewrite andb_false_iff, !Z.leb_gt. reflexivity.
Qed.

(** C1.  [overlaps(l, h)] answers whether the closed intervals
    [[low, high]] and [[l, h]] have a point in common, which is the same
    as [low <= h] and [l <= high]; [overlaps(other)] is [overlaps] at the
    bounds of [other]. *)
Theorem overlaps_closed_intervals (a b : t) (l h : Z) :
  valid a -> l <= h ->
  (overlaps a l h = true <-> low a <= h /\ l <= high a) /\
  (overlaps a l h = true <->
     exists x, (low a <= x <= high a) /\ (l <= x <= h)) /\
  overlaps_other a b = overlaps a (low b) (high b).
Proof.
  unfold valid. intros Ha Hlh.
  split; [apply overlaps_true_iff|].
  split; [|reflexivity].
  rewrite overlaps_true_iff. unfold low, high. split.
  - intros [H1 H2]. exists (Z.max (low_ a) l). lia.
  - intros [x Hx]. lia.
Qed.

Lemma overlaps_closed_intervals_witness :
  let a := mk 3 7 0 in
  let b := mk 7 9 1 in
  valid a /\ 7 <= 9 /\
  (overlaps a 7 9 = true <-> low a <= 9 /\ 7 <= high a) /\
  (overlaps a 7 9 = true <->
     exists x, (low a <= x <= high a) /\ (7 <= x <= 9)) /\
  overlaps_other a b = overlaps a (low b) (high b).
Proof.
  assert (Hv : valid (mk 3 7 0)) by (unfold valid; simpl; lia).
  assert (Hlh : 7 <= 9) by lia.
  split; [exact Hv|]. split; [exact Hlh|].
  exact (overlaps_closed_intervals (mk 3 7 0) (mk 7 9 1) 7 9 Hv Hlh).
Defined.

(** C6.  [operator==] compares the two bounds and nothing else: it holds
    exactly when both bounds agree, whatever the [diagIndex] fields are,
    and [operator!=] is its negation. *)
Theorem eq_ignores_diagIndex (a b : t) :
  (op_eq a b = true <-> low a = low b /\ high a = high b) /\
  (forall i j : Z,
      op_eq (mk (low_ a) (high_ a) i) (mk (low_ b) (high_ b) j) = op_eq a b) /\
  (op_ne a b = true <-> op_eq a b <> true).
Proof.
  unfold op_eq, op_ne, low, high. simpl.
  split; [|split].
  - rewrite andb_true_iff, !Z.eqb_eq. reflexivity.
  - reflexivity.
  - rewrite <- negb_andb, negb_true_iff, not_true_iff_false. reflexivity.
Qed.

Lemma op_sub_overlapping (a b : t) :
  overlaps_other a b = true -> op_sub a b = 0.
Proof. unfold op_sub. intros ->. reflexivity. Qed.

Lemma op_sub_below (a b : t) :
  overlaps_other a b = false -> high a < low b ->
  op_sub a b = Int.sub (low b) (high a).
Proof.
  unfold op_sub, low, high. intros -> Hlt.
  apply Z.ltb_lt in Hlt. rewrite Hlt. reflexivity.
Qed.

Lemma op_sub_above (a b : t) :
  overlaps_other a b = false -> ~ high a < low b ->
  op_sub a b = Int.sub (low a) (high b).
Proof.
  unfold op_sub, low, high. intros -> Hge.
  apply Z.ltb_nlt in Hge. rewrite Hge. reflexivity.
Qed.

(** Without any bound on the gap, [operator-] still vanishes exactly on
    overlapping spans: a wrapped difference of two distinct [int]s is
    never 0. *)
Lemma op_sub_zero_iff (a b : t) :
  representable a -> representable b ->
  op_sub a b = 0 <-> overlaps_other a b = true.
Proof.
  intros (Hal & Hah & _) (Hbl & Hbh & _).
  unfold Int.in_range, Int.INT_MIN, Int.INT_MAX in *.
  split; [|apply op_sub_overlapping].
  destruct (overlaps_other a b) eqn:Hov; [reflexivity|].
  intros Hz. exfalso.
  pose proof Hov as Hov'.
  unfold overlaps_other in Hov'. apply overlaps_false_iff in Hov'.
  unfold low, high in Hov'.
  destruct (Z_lt_le_dec (high_ a) (low_ b)) as [Hlt|Hge].
  - rewrite (op_sub_below a b Hov Hlt) in Hz.
    unfold Int.sub, low, high in Hz. rewrite IntFacts.wrap_zero_iff in Hz by lia. lia.
  - rewrite (op_sub_above a b Hov) in Hz by (unfold low, high; lia).
    unfold Int.sub, low, high in Hz. rewrite IntFacts.wrap_zero_iff in Hz by lia. lia.
Qed.

(** Document positions are never negative; for such spans the gap always
    fits. *)
Lemma gap_fits_nonnegative (a b : t) :
  representable a -> representable b ->
  0 <= low a -> 0 <= low b -> valid a -> valid b ->
  gap a b <= Int.INT_MAX.
Proof.
  intros (Hal & Hah & _) (Hbl & Hbh & _).
  unfold valid, gap, low, high, Int.in_range, Int.INT_MIN, Int.INT_MAX in *.
  lia.
Qed.

(** C7, on the code.  For all spans built by the constructor,
    [operator-] is 0 exactly on overlapping spans.  When the spans do not
    overlap and the gap between their nearest bounds is an [int], as it
    always is for spans with non-negative bounds, [operator-] is that
    strictly positive gap: [b.low() - a.high()] when [a] lies below [b],
    [a.low() - b.high()] when [a] lies above [b]. *)
Theorem distance_when_gap_fits (a b : t) :
  valid a -> valid b -> representable a -> representable b ->
  (op_sub a b = 0 <-> overlaps_other a b = true) /\
  (gap a b <= Int.INT_MAX ->
   overlaps_other a b = false ->
     0 < op_sub a b /\
     (high a < low b -> op_sub a b = low b - high a) /\
     (high b < low a -> op_sub a b = low a - high b)) /\
  (0 <= low a -> 0 <= low b -> gap a b <= Int.INT_MAX).
Proof.
  intros Hva Hvb Hra Hrb.
  split; [apply op_sub_zero_iff; assumption|].
  split; [|intros Hla Hlb; apply gap_fits_nonnegative; assumption].
  intros Hgap Hov.
  destruct Hra as (Hal & Hah & _), Hrb as (Hbl & Hbh & _).
  unfold valid, gap, low, high, Int.in_range, Int.INT_MIN, Int.INT_MAX in *.
  pose proof Hov as Hov'.
  unfold overlaps_other in Hov'. apply overlaps_false_iff in Hov'.
  unfold low, high in Hov'.
  destruct (Z_lt_le_dec (high_ a) (low_ b)) as [Hlt|Hge].
  - rewrite (op_sub_below a b Hov Hlt).
    unfold Int.sub, low, high. rewrite IntFacts.wrap_small
      by (unfold Int.in_range, Int.INT_MIN, Int.INT_MAX; lia).
    lia.
  - rewrite (op_sub_above a b Hov) by (unfold low, high; lia).
    unfold Int.sub, low, high. rewrite IntFacts.wrap_small
      by (unfold Int.in_range, Int.INT_MIN, Int.INT_MAX; lia).
    lia.
Qed.

(** Two disjoint spans of document positions, where the distance is the
    gap 4; and the two ends of the [int] range, where the gap does not
    fit but the distance is still not 0. *)
Lemma distance_when_gap_fits_witness :
  let a := mk 2 5 0 in
  let b := mk 9 12 1 in
  let lo := mk Int.INT_MIN Int.INT_MIN 0 in
  let hi := mk Int.INT_MAX Int.INT_MAX 0 in
  (valid a /\ valid b /\ representable a /\ representable b) /\
  (valid lo /\ valid hi /\ representable lo /\ representable hi) /\
  op_sub a b = low b - high a /\ 0 < op_sub a b /\
  op_sub lo hi <> 0.
Proof.
  cbv zeta.
  assert (Hva : valid (mk 2 5 0)) by (unfold valid; simpl; lia).
  assert (Hvb : valid (mk 9 12 1)) by (unfold valid; simpl; lia).
  assert (Hra : representable (mk 2 5 0))
    by (unfold representable, Int.in_range, Int.INT_MIN, Int.INT_MAX;
        simpl; lia).
  assert (Hrb : representable (mk 9 12 1))
    by (unfold representable, Int.in_range, Int.INT_MIN, Int.INT_MAX;
        simpl; lia).
  assert (Hvl : valid (mk Int.INT_MIN Int.INT_MIN 0))
    by (unfold valid; simpl; lia).
  assert (Hvh : valid (mk Int.INT_MAX Int.INT_MAX 0))
    by (unfold valid; simpl; lia).
  assert (Hrl : representable (mk Int.INT_MIN Int.INT_MIN 0))
    by (unfold representable, Int.in_range, Int.INT_MIN, Int.INT_MAX;
        simpl; lia).
  assert (Hrh : representable (mk Int.INT_MAX Int.INT_MAX 0))
    by (unfold representable, Int.in_range, Int.INT_MIN, Int.INT_MAX;
        simpl; lia).
  split; [tauto|]. split; [tauto|].
  destruct (distance_when_gap_fits (mk 2 5 0) (mk 9 12 1) Hva Hvb Hra Hrb)
    as (_ & Hgap & Hfits).
  destruct (Hgap (Hfits ltac:(simpl; lia) ltac:(simpl; lia)) eq_refl)
    as (Hpos & Hbelow & _).
  split; [apply Hbelow; simpl; lia|]. split; [exact Hpos|].
  destruct (distance_when_gap_fits (mk Int.INT_MIN Int.INT_MIN 0)
              (mk Int.INT_MAX Int.INT_MAX 0) Hvl Hvh Hrl Hrh)
    as (Hzero & _ & _).
  intros H0. apply Hzero in H0. discriminate H0.
Defined.

(** C7, as stated for all spans, fails at the two ends of the [int]
    range.  Both spans are well formed and they do not overlap, but the
    gap [INT_MAX - INT_MIN] between them is not an [int]: whatever
    [operator-] returns is not that gap, and the wrapped difference is
    [-1], which is not positive either. *)
Lemma distance_law_fails_at_extremes :
  let a := mk Int.INT_MIN Int.INT_MIN 0 in
  let b := mk Int.INT_MAX Int.INT_MAX 0 in
  valid a /\ valid b /\ representable a /\ representable b /\
  overlaps_other a b = false /\
  high a < low b /\
  ~ Int.in_range (low b - high a) /\
  op_sub a b = -1 /\
  ~ distance_law a b.
Proof.
  cbv zeta.
  repeat split; try (vm_compute; congruence).
  - unfold Int.in_range. vm_compute. intros [_ H]. apply H. reflexivity.
  - intros [_ Hpos].
    assert (Hov : overlaps_other (mk Int.INT_MIN Int.INT_MIN 0)
                    (mk Int.INT_MAX Int.INT_MAX 0) = false) by reflexivity.
    destruct (Hpos Hov) as [Hlt _].
    vm_compute in Hlt. discriminate.
Qed.

(** *** Further properties of spans *)

Lemma within_other_true_iff (a b : t) :
  within_other a b = true <-> low a <= low b /\ high b <= high a.
Proof.
  unfold within_other, low, high.
  rewrite andb_true_iff, Z.leb_le, Z.geb_le. reflexivity.
Qed.

Lemma overlaps_exclusive_true_iff (a b : t) :
  overlaps_exclusive_other a b = true <-> low a < high b /\ low b < high a.
Proof.
  unfold overlaps_exclusive_other, overlaps_exclusive, low, high.
  rewrite andb_true_iff, !Z.ltb_lt. reflexivity.
Qed.

Lemma overlaps_other_true_iff (a b : t) :
  overlaps_other a b = true <-> low a <= high b /\ low b <= high a.
Proof. unfold overlaps_other. apply overlaps_true_iff. Qed.

Lemma op_eq_true_iff (a b : t) :
  op_eq a b = true <-> low a = low b /\ high a = high b.
Proof.
  unfold op_eq, low, high. rewrite andb_true_iff, !Z.eqb_eq. reflexivity.
Qed.

Lemma bool_eq_iff (x y : bool) : (x = true <-> y = true) -> x = y.
Proof. destruct x, y; intros [H1 H2]; auto; symmetry; auto. Qed.

Lemma overlaps_other_comm (a b : t) :
  overlaps_other a b = overlaps_other b a.
Proof. apply bool_eq_iff. rewrite !overlaps_other_true_iff. tauto. Qed.

(** X1.  Overlapping does not depend on which span is asked:
    [a.overlaps(b)] and [b.overlaps(a)] agree, and so do the exclusive
    variants. *)
Theorem overlaps_symmetric (a b : t) :
  overlaps_other a b = overlaps_other b a /\
  overlaps_exclusive_other a b = overlaps_exclusive_other b a.
Proof.
  split; [apply overlaps_other_comm|].
  apply bool_eq_iff. rewrite !overlaps_exclusive_true_iff. tauto.
Qed.

(** X2.  For spans built by the constructor, [overlaps] and
    [overlaps_exclusive] differ exactly on spans that touch end to end:
    an exclusive overlap is an overlap, and two spans overlap without
    overlapping exclusively if and only if the upper bound of one is the
    lower bound of the other. *)
Theorem overlaps_exclusive_border (a b : t) :
  valid a -> valid b ->
  (overlaps_exclusive_other a b = true -> overlaps_other a b = true) /\
  (overlaps_other a b = true /\ overlaps_exclusive_other a b = false <->
   high a = low b \/ high b = low a).
Proof.
  unfold valid. intros Ha Hb.
  rewrite <- not_true_iff_false.
  rewrite overlaps_exclusive_true_iff, overlaps_other_true_iff.
  unfold low, high. lia.
Qed.

Lemma overlaps_exclusive_border_witness :
  let a := mk 1 4 0 in
  let b := mk 4 9 1 in
  valid a /\ valid b /\
  overlaps_other a b = true /\ overlaps_exclusive_other a b = false.
Proof.
  assert (Ha : valid (mk 1 4 0)) by (unfold valid; simpl; lia).
  assert (Hb : valid (mk 4 9 1)) by (unfold valid; simpl; lia).
  split; [exact Ha|]. split; [exact Hb|].
  apply (proj2 (overlaps_exclusive_border (mk 1 4 0) (mk 4 9 1) Ha Hb)).
  left. reflexivity.
Defined.

(** X3.  [within(other)] orders spans by containment: every span is
    within itself, containment is transitive, and two spans contain each
    other exactly when [operator==] holds of them. *)
Theorem within_partial_order (a b c : t) :
  within_other a a = true /\
  (within_other a b = true -> within_other b c = true ->
   within_other a c = true) /\
  within_other a b && within_other b a = op_eq a b.
Proof.
  split; [|split].
  - apply within_other_true_iff. lia.
  - rewrite !within_other_true_iff. lia.
  - apply bool_eq_iff.
    rewrite andb_true_iff, !within_other_true_iff, op_eq_true_iff. lia.
Qed.

(** X4.  A span overlaps everything that a span within it overlaps; in
    particular it overlaps every constructed span it contains. *)
Theorem within_overlaps (a b c : t) :
  within_other a b = true ->
  (overlaps_other b c = true -> overlaps_other a c = true) /\
  (valid b -> overlaps_other a b = true).
Proof.
  unfold valid.
  rewrite within_other_true_iff, !overlaps_other_true_iff.
  unfold low, high. lia.
Qed.

Lemma within_overlaps_witness :
  let a := mk 0 10 0 in
  let b := mk 3 5 1 in
  let c := mk 5 20 2 in
  within_other a b = true /\ overlaps_other a c = true /\
  overlaps_other a b = true.
Proof.
  assert (Hw : within_other (mk 0 10 0) (mk 3 5 1) = true) by reflexivity.
  destruct (within_overlaps (mk 0 10 0) (mk 3 5 1) (mk 5 20 2) Hw)
    as [Hc Hb].
  split; [exact Hw|]. split.
  - apply Hc. reflexivity.
  - apply Hb. unfold valid. simpl. lia.
Defined.

(** X5.  [join] gives the least span that contains both arguments: both
    are within it, and it is within every span that contains both.  It is
    again a constructed span of [int] bounds when the arguments are, and
    it carries [diagIndex] 0 whatever the arguments carried. *)
Theorem join_least_upper_bound (a b c : t) :
  within_other (join a b) a = true /\
  within_other (join a b) b = true /\
  (within_other c a = true -> within_other c b = true ->
   within_other c (join a b) = true) /\
  (valid a -> valid (join a b)) /\
  (representable a -> representable b -> representable (join a b)) /\
  diagIndex (join a b) = 0.
Proof.
  rewrite !within_other_true_iff.
  unfold valid, representable, Int.in_range, Int.INT_MIN, Int.INT_MAX,
    join, low, high. simpl.
  repeat split; lia.
Qed.

(** X6.  [join] is commutative and associative, joining a span with
    itself gives a span equal to it under [operator==], and a span
    contains another exactly when joining the other to it changes
    nothing under [operator==]. *)
Theorem join_semilattice (a b c : t) :
  join a b = join b a /\
  join (join a b) c = join a (join b c) /\
  op_eq (join a a) a = true /\
  within_other a b = op_eq (join a b) a.
Proof.
  split; [|split; [|split]].
  - unfold join. f_equal; lia.
  - unfold join. simpl. f_equal; lia.
  - apply op_eq_true_iff. unfold join, low, high. simpl. lia.
  - apply bool_eq_iff.
    rewrite within_other_true_iff, op_eq_true_iff.
    unfold join, low, high. simpl. lia.
Qed.

(** X7.  For spans built by the constructor the distance does not depend
    on the order of the operands: [a - b] and [b - a] are the same
    [int]. *)
Theorem op_sub_symmetric (a b : t) :
  valid a -> valid b -> op_sub a b = op_sub b a.
Proof.
  unfold valid. intros Ha Hb. unfold op_sub.
  rewrite <- (overlaps_other_comm a b).
  destruct (overlaps_other a b) eqn:Hov; [reflexivity|].
  apply not_true_iff_false in Hov.
  rewrite overlaps_other_true_iff in Hov. unfold low, high in Hov.
  destruct (Z.ltb_spec (high_ a) (low_ b)) as [H1|H1];
    destruct (Z.ltb_spec (high_ b) (low_ a)) as [H2|H2];
    solve [reflexivity | lia].
Qed.

Lemma op_sub_symmetric_witness :
  let a := mk 2 5 0 in
  let b := mk 9 12 1 in
  valid a /\ valid b /\ op_sub a b = 4 /\ op_sub b a = 4.
Proof.
  assert (Ha : valid (mk 2 5 0)) by (unfold valid; simpl; lia).
  assert (Hb : valid (mk 9 12 1)) by (unfold valid; simpl; lia).
  split; [exact Ha|]. split; [exact Hb|]. split; [reflexivity|].
  rewrite <- (op_sub_symmetric (mk 2 5 0) (mk 9 12 1) Ha Hb). reflexivity.
Defined.

Lemma size_exact (a : t) :
  valid a -> representable a -> high a - low a <= Int.INT_MAX ->
  size a = high a - low a.
Proof.
  unfold valid, low, high. intros Hv (Hl & Hh & _) Hfit.
  unfold size, Int.sub. apply IntFacts.wrap_small.
  unfold Int.in_range, Int.INT_MIN, Int.INT_MAX in *. lia.
Qed.

(** X8.  For a constructed span of [int] bounds, [size()] is 0 exactly
    when the span is a single point, overflow or not; and when the
    difference of the bounds is an [int], [size()] is that difference and
    is not negative. *)
Theorem size_of_span (a : t) :
  valid a -> representable a ->
  (size a = 0 <-> low a = high a) /\
  (high a - low a <= Int.INT_MAX -> size a = high a - low a /\ 0 <= size a).
Proof.
  intros Hv Hr. split.
  - destruct Hr as (Hl & Hh & _).
    unfold size, Int.sub, low, high, Int.in_range, Int.INT_MIN,
      Int.INT_MAX in *.
    rewrite IntFacts.wrap_zero_iff by lia. lia.
  - intros Hfit. rewrite size_exact by assumption.
    unfold valid, low, high in *. lia.
Qed.

Lemma size_of_span_witness :
  let a := mk 3 7 0 in
  valid a /\ representable a /\ size a = 4 /\ size (mk 6 6 0) <> 4.
Proof.
  assert (Hv : valid (mk 3 7 0)) by (unfold valid; simpl; lia).
  assert (Hr : representable (mk 3 7 0))
    by (unfold representable, Int.in_range, Int.INT_MIN, Int.INT_MAX;
        simpl; lia).
  destruct (size_of_span (mk 3 7 0) Hv Hr) as [_ Hfit].
  split; [exact Hv|]. split; [exact Hr|]. split.
  - apply Hfit. unfold Int.INT_MAX. simpl. lia.
  - vm_compute. discriminate.
Defined.

(** X9.  Sizes, [join] and distance fit together.  For constructed spans
    with non-negative [int] bounds, the size of the join of two spans
    that do not overlap is the sum of their sizes and of their distance;
    for spans that overlap it is at most the sum of their sizes. *)
Theorem size_join (a b : t) :
  valid a -> valid b -> representable a -> representable b ->
  0 <= low a -> 0 <= low b ->
  (overlaps_other a b = false ->
   size (join a b) = size a + size b + op_sub a b) /\
  (overlaps_other a b = true ->
   size (join a b) <= size a + size b).
Proof.
  intros Hva Hvb Hra Hrb Hla Hlb.
  assert (Hsa : size a = high a - low a).
  { apply size_exact; try assumption.
    destruct Hra as (? & ? & _).
    unfold valid, low, high, Int.in_range, Int.INT_MIN, Int.INT_MAX in *.
    lia. }
  assert (Hsb : size b = high b - low b).
  { apply size_exact; try assumption.
    destruct Hrb as (? & ? & _).
    unfold valid, low, high, Int.in_range, Int.INT_MIN, Int.INT_MAX in *.
    lia. }
  assert (Hsj : size (join a b) = high (join a b) - low (join a b)).
  { destruct Hra as (? & ? & ?), Hrb as (? & ? & ?).
    apply size_exact;
      unfold valid, representable, join, low, high, Int.in_range,
        Int.INT_MIN, Int.INT_MAX in *; simpl; lia. }
  rewrite Hsj, Hsa, Hsb.
  split; intros Hov.
  - pose proof (gap_fits_nonnegative a b Hra Hrb Hla Hlb Hva Hvb) as Hgap.
    assert (Hd : op_sub a b = gap a b).
    { pose proof Hov as Hov'.
      apply not_true_iff_false in Hov'.
      rewrite overlaps_other_true_iff in Hov'.
      destruct Hra as (? & ? & _), Hrb as (? & ? & _).
      unfold valid, gap, low, high, Int.in_range, Int.INT_MIN,
        Int.INT_MAX in *.
      destruct (Z_lt_le_dec (high_ a) (low_ b)) as [Hlt|Hge].
      - rewrite (op_sub_below a b Hov Hlt).
        unfold Int.sub, low, high. rewrite IntFacts.wrap_small
          by (unfold Int.in_range, Int.INT_MIN, Int.INT_MAX; lia).
        lia.
      - rewrite (op_sub_above a b Hov) by (unfold low, high; lia).
        unfold Int.sub, low, high. rewrite IntFacts.wrap_small
          by (unfold Int.in_range, Int.INT_MIN, Int.INT_MAX; lia).
        lia. }
    rewrite Hd.
    apply not_true_iff_false in Hov.
    rewrite overlaps_other_true_iff in Hov.
    unfold valid, gap, join, low, high in *. simpl. lia.
  - rewrite overlaps_other_true_iff in Hov.
    unfold valid, join, low, high in *. simpl. lia.
Qed.

Lemma size_join_witness :
  let a := mk 2 5 0 in
  let b := mk 9 12 1 in
  (valid a /\ valid b /\ representable a /\ representable b /\
   0 <= low a /\ 0 <= low b) /\
  size (join a b) = 10 /\ size a + size b + op_sub a b = 10.
Proof.
  assert (Hva : valid (mk 2 5 0)) by (unfold valid; simpl; lia).
  assert (Hvb : valid (mk 9 12 1)) by (unfold valid; simpl; lia).
  assert (Hra : representable (mk 2 5 0))
    by (unfold representable, Int.in_range, Int.INT_MIN, Int.INT_MAX;
        simpl; lia).
  assert (Hrb : representable (mk 9 12 1))
    by (unfold representable, Int.in_range, Int.INT_MIN, Int.INT_MAX;
        simpl; lia).
  assert (Hla : 0 <= low (mk 2 5 0)) by (simpl; lia).
  assert (Hlb : 0 <= low (mk 9 12 1)) by (simpl; lia).
  destruct (size_join (mk 2 5 0) (mk 9 12 1) Hva Hvb Hra Hrb Hla Hlb)
    as [Hdis _].
  split; [tauto|]. split; [reflexivity|].
  rewrite <- Hdis by reflexivity. reflexivity.
Defined.

End InternalSpanSpec.

(** ** Severities and font weights *)

Module SeverityFacts.
Import Severity.

Lemma to_int_inj a b : to_int a = to_int b -> a = b.
Proof. destruct a, b; simpl; intros H; try reflexivity; discriminate H. Qed.

Lemma qMax_is_max a b : qMax a b = max_severity a b.
Proof. destruct a, b; reflexivity. Qed.

Lemma qMax_to_int a b : to_int (qMax a b) = Z.max (to_int a) (to_int b).
Proof. destruct a, b; reflexivity. Qed.

Lemma qMax_upper a b : le a (qMax a b) /\ le b (qMax a b).
Proof. unfold le. rewrite qMax_to_int. lia. Qed.

Lemma qMax_idem a : qMax a a = a.
Proof. destruct a; reflexivity. Qed.

End SeverityFacts.

Module WeightFacts.
Import Weight.

Lemma le_qt6 a b : le a b <-> to_int_qt6 a <= to_int_qt6 b.
Proof. unfold le. destruct a, b; simpl; lia. Qed.

End WeightFacts.

(** ** Decimal numbers *)

Module QStringFacts.
Import QString.

Lemma digit_value_char d : 0 <= d < 10 -> digit_value (digit_char d) = d.
Proof.
  intros Hd. unfold digit_value, digit_char.
  rewrite nat_ascii_embedding by lia. lia.
Qed.

Lemma digit_char_not_minus d : 0 <= d < 10 -> digit_char d <> "-"%char.
Proof.
  intros Hd Heq. apply (f_equal digit_value) in Heq.
  rewrite digit_value_char in Heq by assumption.
  vm_compute in Heq. lia.
Qed.

Lemma pow2_succ_nat (f : nat) : 2 ^ Z.of_nat (S f) = 2 * 2 ^ Z.of_nat f.
Proof. rewrite Nat2Z.inj_succ, Z.pow_succ_r by lia. reflexivity. Qed.

(** With enough fuel the loop writes [n] in front of the accumulator. *)
Lemma digits_of_eval (f : nat) : forall (n : Z) (acc : string),
  0 <= n < 2 ^ Z.of_nat (S f) ->
  fst (eval_digits (digits_of (S f) n acc)) =
    n * snd (eval_digits acc) + fst (eval_digits acc).
Proof.
  induction f as [|f IH]; intros n acc Hn.
  - change (2 ^ Z.of_nat 1) with 2 in Hn.
    assert (Hq : n / 10 = 0) by (apply Z.div_small; lia).
    assert (Hr : n mod 10 = n) by (apply Z.mod_small; lia).
    simpl digits_of. rewrite Hq, Hr. simpl.
    destruct (eval_digits acc) as [v p]. simpl.
    rewrite digit_value_char by lia. reflexivity.
  - rewrite pow2_succ_nat in Hn.
    pose proof (Z.mod_pos_bound n 10 ltac:(lia)) as Hmod.
    pose proof (Z.div_mod n 10 ltac:(lia)) as Hdm.
    change (digits_of (S (S f)) n acc)
      with (if n / 10 =? 0
            then String (digit_char (n mod 10)) acc
            else digits_of (S f) (n / 10) (String (digit_char (n mod 10)) acc)).
    destruct (Z.eqb_spec (n / 10) 0) as [Hq|Hq].
    + simpl. destruct (eval_digits acc) as [v p]. simpl.
      rewrite digit_value_char by lia. nia.
    + rewrite IH.
      * simpl. destruct (eval_digits acc) as [v p]. simpl.
        rewrite digit_value_char by lia. nia.
      * split; [apply Z.div_pos; lia|].
        apply Z.div_lt_upper_bound; lia.
Qed.

Lemma log2_fuel_enough (n : Z) :
  0 <= n -> 0 <= n < 2 ^ Z.of_nat (S (Z.to_nat (Z.log2 n))).
Proof.
  intros Hn. split; [assumption|].
  rewrite Nat2Z.inj_succ, Z2Nat.id by apply Z.log2_nonneg.
  destruct (Z.eq_dec n 0) as [->|Hne]; [reflexivity|].
  apply Z.log2_spec. lia.
Qed.

Lemma unsigned_number_value (n : Z) :
  0 <= n -> fst (eval_digits (unsigned_number n)) = n.
Proof.
  intros Hn. unfold unsigned_number.
  rewrite digits_of_eval by (apply log2_fuel_enough; assumption).
  simpl. lia.
Qed.

(** The loop only ever puts digits in front, so the first character of
    its result is a digit whenever the accumulator starts with one or is
    empty. *)
Lemma digits_of_head (f : nat) : forall (n : Z) (acc : string),
  0 <= n ->
  exists d rest, 0 <= d < 10 /\ digits_of (S f) n acc = String (digit_char d) rest.
Proof.
  induction f as [|f IH]; intros n acc Hn.
  - pose proof (Z.mod_pos_bound n 10 ltac:(lia)) as Hmod.
    simpl. destruct (n / 10 =? 0); eauto.
  - pose proof (Z.mod_pos_bound n 10 ltac:(lia)) as Hmod.
    change (digits_of (S (S f)) n acc)
      with (if n / 10 =? 0
            then String (digit_char (n mod 10)) acc
            else digits_of (S f) (n / 10) (String (digit_char (n mod 10)) acc)).
    destruct (n / 10 =? 0); [eauto|].
    apply IH. apply Z.div_pos; lia.
Qed.

(** [number] writes the decimal representation: reading it back gives the
    number. *)
Lemma number_value (n : Z) : value (number n) = n.
Proof.
  unfold number. destruct (Z.ltb_spec n 0) as [Hneg|Hpos].
  - unfold value. rewrite unsigned_number_value by lia. lia.
  - unfold unsigned_number.
    destruct (digits_of_head (Z.to_nat (Z.log2 n)) n EmptyString Hpos)
      as (d & rest & Hd & Heq).
    pose proof (unsigned_number_value n Hpos) as Hv.
    unfold unsigned_number in Hv. rewrite Heq in *.
    unfold value.
    destruct (digit_char d) as [b0 b1 b2 b3 b4 b5 b6 b7] eqn:Hc.
    destruct b0, b1, b2, b3, b4, b5, b6, b7; try exact Hv.
    exfalso. apply (digit_char_not_minus d Hd). exact Hc.
Qed.

(** The loop emits [k + 1] characters exactly for the numbers from [10^k]
    up to, not including, [10^(k+1)]. *)
Lemma digits_of_count (f : nat) : forall (n : Z) (acc : string),
  0 < n < 2 ^ Z.of_nat (S f) ->
  exists k : nat,
    String.length (digits_of (S f) n acc) = (S k + String.length acc)%nat /\
    10 ^ Z.of_nat k <= n < 10 ^ Z.of_nat (S k).
Proof.
  induction f as [|f IH]; intros n acc Hn.
  - change (2 ^ Z.of_nat 1) with 2 in Hn.
    assert (Hq : n / 10 = 0) by (apply Z.div_small; lia).
    exists O. simpl digits_of. rewrite Hq. simpl. lia.
  - rewrite pow2_succ_nat in Hn.
    pose proof (Z.div_mod n 10 ltac:(lia)) as Hdm.
    pose proof (Z.mod_pos_bound n 10 ltac:(lia)) as Hmod.
    change (digits_of (S (S f)) n acc)
      with (if n / 10 =? 0
            then String (digit_char (n mod 10)) acc
            else digits_of (S f) (n / 10) (String (digit_char (n mod 10)) acc)).
    destruct (Z.eqb_spec (n / 10) 0) as [Hq|Hq].
    + exists O. simpl. lia.
    + assert (Hq' : 0 < n / 10 < 2 ^ Z.of_nat (S f)).
      { split.
        - pose proof (Z.div_pos n 10 ltac:(lia) ltac:(lia)). lia.
        - apply Z.div_lt_upper_bound; lia. }
      destruct (IH (n / 10) (String (digit_char (n mod 10)) acc) Hq')
        as (k & Hlen & Hk).
      exists (S k). split.
      * rewrite Hlen. simpl. lia.
      * rewrite (Nat2Z.inj_succ (S k)), Z.pow_succ_r by lia.
        rewrite (Nat2Z.inj_succ k), Z.pow_succ_r by lia.
        rewrite (Nat2Z.inj_succ k), Z.pow_succ_r in Hk by lia.
        lia.
Qed.

Lemma decimal_digits_mono (n m dn dm : Z) :
  decimal_digits n dn -> decimal_digits m dm -> n <= m -> dn <= dm.
Proof.
  intros [Hdn [Hn1 Hn2]] [Hdm [Hm1 Hm2]] Hle.
  destruct (Z_le_gt_dec dn dm) as [H|H]; [assumption|exfalso].
  assert (Hpow : 10 ^ dm <= 10 ^ (dn - 1)) by (apply Z.pow_le_mono_r; lia).
  lia.
Qed.

(** For a positive number the length of [number n] is its number of
    decimal digits. *)
Lemma number_length_digits (n : Z) :
  0 < n -> decimal_digits n (Z.of_nat (String.length (number n))).
Proof.
  intros Hn. unfold number.
  destruct (Z.ltb_spec n 0) as [Hneg|_]; [lia|].
  unfold unsigned_number.
  assert (Hf : 0 < n < 2 ^ Z.of_nat (S (Z.to_nat (Z.log2 n)))).
  { split; [assumption|]. apply log2_fuel_enough. lia. }
  destruct (digits_of_count _ n EmptyString Hf) as (k & Hlen & Hk).
  rewrite Hlen. simpl String.length. rewrite Nat.add_0_r.
  unfold decimal_digits.
  replace (Z.of_nat (S k) - 1) with (Z.of_nat k) by lia.
  split; [lia|exact Hk].
Qed.

(** An [int] has at most ten decimal digits. *)
Lemma number_length_int (n : Z) :
  0 < n <= Int.INT_MAX -> 1 <= Z.of_nat (String.length (number n)) <= 10.
Proof.
  intros Hn.
  pose proof (number_length_digits n ltac:(lia)) as Hd.
  assert (Hmax : decimal_digits Int.INT_MAX 10)
    by (unfold decimal_digits, Int.INT_MAX; simpl; lia).
  pose proof (decimal_digits_mono _ _ _ _ Hd Hmax ltac:(lia)).
  destruct Hd as [H1 _]. lia.
Qed.

End QStringFacts.

(** ** The line number area *)

Module QLineNumberAreaSpec.
Import QLineNumberArea.

Lemma mark_line_same severity i m :
  mark_line severity i m !! i = Some (merged (m !! i) severity).
Proof.
  unfold mark_line, merged.
  destruct (m !! i) as [j|] eqn:Hj; rewrite lookup_insert_eq.
  - rewrite SeverityFacts.qMax_is_max. reflexivity.
  - reflexivity.
Qed.

Lemma mark_line_other severity i k m :
  i <> k -> mark_line severity i m !! k = m !! k.
Proof.
  intros Hne. unfold mark_line.
  destruct (m !! i); rewrite lookup_insert_ne; auto.
Qed.

(** The loop variable never leaves the [int] range: [++i] is only
    executed below an [endLine] that is itself an [int]. *)
Lemma marker_loop_increment (i endLine : Z) :
  Int.in_range i -> Int.in_range endLine -> i < endLine ->
  Int.add i 1 = i + 1 /\ Int.in_range (i + 1).
Proof.
  unfold Int.add, Int.in_range, Int.INT_MIN, Int.INT_MAX.
  intros Hi He Hlt.
  split; [|lia].
  apply IntFacts.wrap_small.
  unfold Int.in_range, Int.INT_MIN, Int.INT_MAX. lia.
Qed.

(** Lines below the loop variable are no longer touched. *)
Lemma marker_loop_before severity i endLine m k :
  k < i -> marker_loop severity i endLine m !! k = m !! k.
Proof.
  funelim (marker_loop severity i endLine m); intros Hk.
  - rewrite H by lia. apply mark_line_other. lia.
  - reflexivity.
Qed.

(** Lines at or past [endLine] are never reached. *)
Lemma marker_loop_after severity i endLine m k :
  endLine <= k -> marker_loop severity i endLine m !! k = m !! k.
Proof.
  funelim (marker_loop severity i endLine m); intros Hk.
  - rewrite H by lia. apply mark_line_other. lia.
  - reflexivity.
Qed.

(** Every line from the loop variable up to [endLine] is merged once. *)
Lemma marker_loop_inside severity i endLine m k :
  i <= k < endLine ->
  marker_loop severity i endLine m !! k = Some (merged (m !! k) severity).
Proof.
  funelim (marker_loop severity i endLine m); intros Hk.
  - destruct (Z.eq_dec i k) as [->|Hne].
    + rewrite marker_loop_before by lia. apply mark_line_same.
    + rewrite H by lia. rewrite mark_line_other by assumption. reflexivity.
  - lia.
Qed.

(** C2.  After [addDiagnosticMarker(severity, startLine, endLine)] every
    line of [[startLine, endLine)] carries the larger, in the order
    [Hint < Information < Warning < Error], of its previous marker (if it
    had one) and the new severity; every other line, [endLine] among them,
    keeps the marker state it had. *)
Theorem addDiagnosticMarker_lines (severity : DiagnosticSeverity)
    (startLine endLine : Z) (g : t) :
  let g' := addDiagnosticMarker severity startLine endLine g in
  (forall i : Z, startLine <= i < endLine ->
     m_diagnosticMarkers g' !! i =
       Some (merged (m_diagnosticMarkers g !! i) severity)) /\
  (forall i : Z, ~ (startLine <= i < endLine) ->
     m_diagnosticMarkers g' !! i = m_diagnosticMarkers g !! i) /\
  m_diagnosticMarkers g' !! endLine = m_diagnosticMarkers g !! endLine.
Proof.
  cbv zeta. unfold addDiagnosticMarker. simpl.
  split; [|split].
  - intros i Hi. apply marker_loop_inside. exact Hi.
  - intros i Hi.
    destruct (Z_lt_le_dec i startLine) as [Hlt|Hge].
    + apply marker_loop_before. exact Hlt.
    + apply marker_loop_after. lia.
  - apply marker_loop_after. lia.
Qed.

(** A Warning over lines 2 to 4 of a gutter that already shows an Error
    on line 3 and a Hint on line 5. *)
Lemma addDiagnosticMarker_lines_witness :
  let g := mk (<[3 := Error]> (<[5 := Hint]> ∅)) None false in
  let g' := addDiagnosticMarker Warning 2 5 g in
  m_diagnosticMarkers g' !! 2 = Some Warning /\
  m_diagnosticMarkers g' !! 3 = Some Error /\
  m_diagnosticMarkers g' !! 5 = Some Hint /\
  m_diagnosticMarkers g' !! 1 = None.
Proof.
  cbv zeta.
  destruct (addDiagnosticMarker_lines Warning 2 5
              (mk (<[3 := Error]> (<[5 := Hint]> ∅)) None false))
    as (Hin & Hout & Hend).
  split; [rewrite Hin by lia; reflexivity|].
  split; [rewrite Hin by lia; reflexivity|].
  split; [rewrite Hend; reflexivity|].
  rewrite Hout by lia. reflexivity.
Defined.

(** C8.  [intToFontWeight] answers for every [int] and is monotone: a
    larger argument never gives a lighter weight; every argument from 601
    to 800 gives [Bold]. *)
Theorem intToFontWeight_monotone (v1 v2 : Z) :
  v1 <= v2 ->
  (exists w1 w2, intToFontWeight v1 = w1 /\ intToFontWeight v2 = w2) /\
  Weight.le (intToFontWeight v1) (intToFontWeight v2) /\
  Weight.to_int_qt6 (intToFontWeight v1)
    <= Weight.to_int_qt6 (intToFontWeight v2) /\
  (601 <= v1 <= 800 -> intToFontWeight v1 = Bold).
Proof.
  intros Hle. split; [eauto|].
  assert (Hmono : Weight.le (intToFontWeight v1) (intToFontWeight v2)).
  { unfold Weight.le, intToFontWeight.
    repeat match goal with
           | |- context [?a <=? ?b] => destruct (Z.leb_spec a b)
           end; simpl; lia. }
  split; [exact Hmono|]. split; [apply WeightFacts.le_qt6; exact Hmono|].
  intros Hv. unfold intToFontWeight.
  repeat match goal with
         | |- context [?a <=? ?b] => destruct (Z.leb_spec a b)
         end; solve [reflexivity | lia].
Qed.

Lemma intToFontWeight_monotone_witness :
  650 <= 750 /\
  Weight.le (intToFontWeight 650) (intToFontWeight 750) /\
  intToFontWeight 650 = Bold.
Proof.
  assert (H : 650 <= 750) by lia.
  destruct (intToFontWeight_monotone 650 750 H) as (_ & Hmono & _ & Hbold).
  split; [exact H|]. split; [exact Hmono|].
  apply Hbold. lia.
Defined.

(** C4.  With a parent editor, [updateEditorLineCount] fixes the width at
    15 plus the advance of ['9'] times the number of decimal digits of the
    block count.  For one font, a document with more blocks never gets a
    narrower gutter.  A document has at least one block, an advance is not
    negative, and the width is an [int]. *)
Theorem updateEditorLineCount_width (g : t) (adv count1 count2 : Z) :
  0 <= adv -> 15 + adv * 10 <= Int.INT_MAX ->
  1 <= count1 <= count2 -> count2 <= Int.INT_MAX ->
  exists d1 d2 : Z,
    QString.decimal_digits count1 d1 /\
    QString.decimal_digits count2 d2 /\
    fixedWidth (updateEditorLineCount (Some (mkParent count1 adv)) g)
      = Some (15 + adv * d1) /\
    fixedWidth (updateEditorLineCount (Some (mkParent count2 adv)) g)
      = Some (15 + adv * d2) /\
    15 + adv * d1 <= 15 + adv * d2.
Proof.
  intros Hadv Hfit Hcount Hmax.
  set (d1 := Z.of_nat (String.length (QString.number count1))).
  set (d2 := Z.of_nat (String.length (QString.number count2))).
  assert (Hd1 : QString.decimal_digits count1 d1)
    by (apply QStringFacts.number_length_digits; lia).
  assert (Hd2 : QString.decimal_digits count2 d2)
    by (apply QStringFacts.number_length_digits; lia).
  assert (Hb1 : 1 <= d1 <= 10) by (apply QStringFacts.number_length_int; lia).
  assert (Hb2 : 1 <= d2 <= 10) by (apply QStringFacts.number_length_int; lia).
  assert (Hmono : d1 <= d2)
    by (apply (QStringFacts.decimal_digits_mono count1 count2); tauto).
  assert (Hwidth : forall d, 1 <= d <= 10 ->
            Int.add 15 (Int.mul adv d) = 15 + adv * d).
  { intros d Hd. unfold Int.add, Int.mul.
    unfold Int.INT_MAX in Hfit.
    rewrite (IntFacts.wrap_small (adv * d))
      by (unfold Int.in_range, Int.INT_MIN, Int.INT_MAX; nia).
    apply IntFacts.wrap_small.
    unfold Int.in_range, Int.INT_MIN, Int.INT_MAX. nia. }
  exists d1, d2.
  split; [exact Hd1|]. split; [exact Hd2|].
  unfold updateEditorLineCount. simpl. fold d1 d2.
  rewrite !Hwidth by assumption.
  split; [reflexivity|]. split; [reflexivity|]. nia.
Qed.

(** An 8 pixel wide digit: 99 blocks need 31 pixels, 100 blocks need 39. *)
Lemma updateEditorLineCount_width_witness :
  let g := mk ∅ None false in
  fixedWidth (updateEditorLineCount (Some (mkParent 99 8)) g) = Some 31 /\
  fixedWidth (updateEditorLineCount (Some (mkParent 100 8)) g) = Some 39 /\
  exists d1 d2 : Z,
    QString.decimal_digits 99 d1 /\
    QString.decimal_digits 100 d2 /\
    15 + 8 * d1 <= 15 + 8 * d2.
Proof.
  cbv zeta.
  split; [reflexivity|]. split; [reflexivity|].
  destruct (updateEditorLineCount_width (mk ∅ None false) 8 99 100)
    as (d1 & d2 & H1 & H2 & _ & _ & Hle);
    [lia | unfold Int.INT_MAX; lia | lia | unfold Int.INT_MAX; lia |].
  exists d1, d2. split; [exact H1|]. split; [exact H2|exact Hle].
Defined.

Lemma paint_block_text (g : t) (inp : PaintInput) (blockNumber top : Z)
    (x y w h : Z) (text : string) :
  In (DrawText x y w h text) (paint_block g inp blockNumber top) ->
  text = QString.number (Int.add blockNumber 1).
Proof.
  unfold paint_block. rewrite in_app_iff. intros [Hm|Hd].
  - destruct (m_diagnosticMarkers g !! blockNumber); simpl in Hm.
    + destruct Hm as [Hm|[]]. discriminate Hm.
    + destruct Hm.
  - destruct (cursorBlockNumber inp =? blockNumber); simpl in Hd;
      repeat match goal with
             | H : _ \/ _ |- _ => destruct H
             | H : False |- _ => destruct H
             | H : _ = DrawText _ _ _ _ _ |- _ =>
                 first [discriminate H | injection H as <- <- <- <- <-]
             end; reflexivity.
Qed.

(** As long as the loop's counter starts as the position of [block], each
    painted block is a visible block of the document, painted with its own
    position as block number. *)
Lemma paint_loop_rows (g : t) (inp : PaintInput) :
  forall (rest : list Block) (block : nat) (blockNumber top bottom : Z)
         (n : nat) (cmds : list PaintCmd),
  blockNumber = Z.of_nat block ->
  Z.of_nat (block + length rest) <= Int.INT_MAX ->
  In (n, cmds) (paint_loop g inp rest block blockNumber top bottom) ->
  exists (b : Block) (top' : Z),
    (block <= n)%nat /\ rest !! (n - block)%nat = Some b /\
    isVisible b = true /\ cmds = paint_block g inp (Z.of_nat n) top'.
Proof.
  induction rest as [|b rest' IH];
    intros block blockNumber top bottom n cmds Hbn Hlen Hin.
  - destruct Hin.
  - simpl in Hin.
    destruct (top <=? dirtyBottom inp); [|destruct Hin].
    apply in_app_iff in Hin. destruct Hin as [Hrow|Hrec].
    + destruct (isVisible b) eqn:Hvis; simpl in Hrow.
      * destruct (bottom >=? dirtyTop inp); simpl in Hrow;
          [|destruct Hrow].
        destruct Hrow as [Hrow|[]]. injection Hrow as <- <-.
        exists b, top. rewrite Nat.sub_diag. subst blockNumber.
        repeat split; [lia|assumption].
      * destruct Hrow.
    + apply IH in Hrec.
      * destruct Hrec as (b' & top' & Hle & Hlk & Hvis & Hcmds).
        exists b', top'.
        replace (n - block)%nat with (S (n - S block)) by lia.
        repeat split; [lia|exact Hlk|exact Hvis|exact Hcmds].
      * subst blockNumber. unfold Int.add. rewrite IntFacts.wrap_small.
        -- lia.
        -- simpl length in Hlen.
           unfold Int.in_range, Int.INT_MIN, Int.INT_MAX in *. lia.
      * simpl length in Hlen. lia.
Qed.


(** *** Further properties of the diagnostic markers *)

Lemma in_lines_true_iff (startLine endLine k : Z) :
  in_lines startLine endLine k = true <-> startLine <= k < endLine.
Proof. unfold in_lines. rewrite andb_true_iff, Z.leb_le, Z.ltb_lt. tauto. Qed.

Lemma in_lines_false_iff (startLine endLine k : Z) :
  in_lines startLine endLine k = false <-> ~ (startLine <= k < endLine).
Proof.
  rewrite <- in_lines_true_iff. symmetry. apply not_true_iff_false.
Qed.

(** The whole effect of the loop on one line. *)
Lemma marker_loop_lookup severity startLine endLine m k :
  marker_loop severity startLine endLine m !! k =
    if in_lines startLine endLine k
    then Some (merged (m !! k) severity)
    else m !! k.
Proof.
  destruct (in_lines startLine endLine k) eqn:Hk.
  - apply in_lines_true_iff in Hk. apply marker_loop_inside. exact Hk.
  - apply in_lines_false_iff in Hk.
    destruct (Z_lt_le_dec k startLine) as [Hlt|Hge].
    + apply marker_loop_before. exact Hlt.
    + apply marker_loop_after. lia.
Qed.

Lemma merged_le_new (old : option DiagnosticSeverity) (sev : DiagnosticSeverity) :
  Severity.le sev (merged old sev).
Proof. destruct old as [[]|], sev; unfold Severity.le; simpl; lia. Qed.

Lemma merged_le_old (old sev : DiagnosticSeverity) :
  Severity.le old (merged (Some old) sev).
Proof. destruct old, sev; unfold Severity.le; simpl; lia. Qed.

Lemma merged_comm (old : option DiagnosticSeverity) (s1 s2 : DiagnosticSeverity) :
  merged (Some (merged old s1)) s2 = merged (Some (merged old s2)) s1.
Proof. destruct old as [[]|], s1, s2; reflexivity. Qed.

Lemma merged_absorb (old : option DiagnosticSeverity) (s1 s2 : DiagnosticSeverity) :
  Severity.le s2 s1 -> merged (Some (merged old s1)) s2 = merged old s1.
Proof.
  unfold Severity.le.
  destruct old as [[]|], s1, s2; simpl; intros H; solve [reflexivity | lia].
Qed.

(** Two gutters with the same markers that both went through
    [addDiagnosticMarker] are the same gutter. *)
Lemma addDiagnosticMarker_ext sev1 s1 e1 sev2 s2 e2 (g1 g2 : t) :
  fixedWidth g1 = fixedWidth g2 ->
  marker_loop sev1 s1 e1 (m_diagnosticMarkers g1)
    = marker_loop sev2 s2 e2 (m_diagnosticMarkers g2) ->
  addDiagnosticMarker sev1 s1 e1 g1 = addDiagnosticMarker sev2 s2 e2 g2.
Proof.
  intros Hw Hm. unfold addDiagnosticMarker, update. simpl.
  rewrite Hw, Hm. reflexivity.
Qed.

(** X10.  An empty range of lines ([endLine <= startLine]) marks nothing:
    the markers and the width stay as they were, and a repaint is still
    requested. *)
Theorem addDiagnosticMarker_empty_range (severity : DiagnosticSeverity)
    (startLine endLine : Z) (g : t) :
  endLine <= startLine ->
  m_diagnosticMarkers (addDiagnosticMarker severity startLine endLine g)
    = m_diagnosticMarkers g /\
  fixedWidth (addDiagnosticMarker severity startLine endLine g)
    = fixedWidth g /\
  updateRequested (addDiagnosticMarker severity startLine endLine g) = true.
Proof.
  intros Hle. split; [|split; reflexivity].
  unfold addDiagnosticMarker. simpl.
  apply map_eq. intros k. rewrite marker_loop_lookup.
  destruct (in_lines startLine endLine k) eqn:Hk; [|reflexivity].
  apply in_lines_true_iff in Hk. lia.
Qed.

Lemma addDiagnosticMarker_empty_range_witness :
  let g := mk (<[3 := Error]> ∅) (Some 31) false in
  7 <= 7 /\
  m_diagnosticMarkers (addDiagnosticMarker Warning 7 7 g) = <[3 := Error]> ∅.
Proof.
  assert (H : 7 <= 7) by lia.
  split; [exact H|].
  exact (proj1 (addDiagnosticMarker_empty_range Warning 7 7
                  (mk (<[3 := Error]> ∅) (Some 31) false) H)).
Defined.

(** X11.  [addDiagnosticMarker] never removes a marker and never lowers
    one: a line that had a marker still has one of at least that
    severity, every visited line has one of at least the new severity,
    and a line without a marker afterwards had none before and was not
    visited. *)
Theorem addDiagnosticMarker_never_lowers (severity : DiagnosticSeverity)
    (startLine endLine : Z) (g : t) (i : Z) :
  let g' := addDiagnosticMarker severity startLine endLine g in
  (forall old, m_diagnosticMarkers g !! i = Some old ->
     exists new, m_diagnosticMarkers g' !! i = Some new /\
                 Severity.le old new) /\
  (startLine <= i < endLine ->
     exists new, m_diagnosticMarkers g' !! i = Some new /\
                 Severity.le severity new) /\
  (m_diagnosticMarkers g' !! i = None ->
     m_diagnosticMarkers g !! i = None /\ ~ (startLine <= i < endLine)).
Proof.
  cbv zeta. unfold addDiagnosticMarker. simpl.
  rewrite marker_loop_lookup.
  destruct (in_lines startLine endLine i) eqn:Hi.
  - apply in_lines_true_iff in Hi. split; [|split].
    + intros old Hold. rewrite Hold. eexists. split; [reflexivity|].
      apply merged_le_old.
    + intros _. eexists. split; [reflexivity|]. apply merged_le_new.
    + discriminate.
  - apply in_lines_false_iff in Hi. split; [|split].
    + intros old Hold. exists old. split; [exact Hold|].
      unfold Severity.le. lia.
    + intros Hin. contradiction.
    + intros Hnone. split; assumption.
Qed.

(** X12.  The order in which two diagnostics are added does not matter
    to the gutter: both orders give the same state. *)
Theorem addDiagnosticMarker_commutes (sev1 sev2 : DiagnosticSeverity)
    (s1 e1 s2 e2 : Z) (g : t) :
  addDiagnosticMarker sev1 s1 e1 (addDiagnosticMarker sev2 s2 e2 g)
  = addDiagnosticMarker sev2 s2 e2 (addDiagnosticMarker sev1 s1 e1 g).
Proof.
  apply addDiagnosticMarker_ext; [reflexivity|].
  unfold addDiagnosticMarker. simpl.
  apply map_eq. intros k. rewrite !marker_loop_lookup.
  destruct (in_lines s1 e1 k), (in_lines s2 e2 k); try reflexivity.
  f_equal. apply merged_comm.
Qed.

(** X13.  A diagnostic that is no more severe than one already added and
    whose lines lie among that one's lines leaves the gutter as it is;
    in particular adding the same diagnostic twice is the same as adding
    it once. *)
Theorem addDiagnosticMarker_absorbs (sev1 sev2 : DiagnosticSeverity)
    (s1 e1 s2 e2 : Z) (g : t) :
  Severity.le sev2 sev1 -> s1 <= s2 -> e2 <= e1 ->
  addDiagnosticMarker sev2 s2 e2 (addDiagnosticMarker sev1 s1 e1 g)
  = addDiagnosticMarker sev1 s1 e1 g.
Proof.
  intros Hsev Hs He.
  unfold addDiagnosticMarker, update. simpl. f_equal.
  apply map_eq. intros k. rewrite !marker_loop_lookup.
  destruct (in_lines s2 e2 k) eqn:H2; [|reflexivity].
  apply in_lines_true_iff in H2.
  assert (H1 : in_lines s1 e1 k = true) by (apply in_lines_true_iff; lia).
  rewrite H1. f_equal. apply merged_absorb. exact Hsev.
Qed.

Lemma addDiagnosticMarker_absorbs_witness :
  let g := mk (<[4 := Hint]> ∅) None false in
  Severity.le Warning Error /\ 2 <= 3 /\ 5 <= 6 /\
  addDiagnosticMarker Warning 3 5 (addDiagnosticMarker Error 2 6 g)
  = addDiagnosticMarker Error 2 6 g.
Proof.
  assert (Hsev : Severity.le Warning Error) by (unfold Severity.le; simpl; lia).
  assert (Hs : 2 <= 3) by lia.
  assert (He : 5 <= 6) by lia.
  split; [exact Hsev|]. split; [exact Hs|]. split; [exact He|].
  exact (addDiagnosticMarker_absorbs Error Warning 2 6 3 5
           (mk (<[4 := Hint]> ∅) None false) Hsev Hs He).
Defined.

(** X14.  Adding one diagnostic over [[startLine, middle)] and then over
    [[middle, endLine)] with the same severity is the same as adding it
    once over [[startLine, endLine)]. *)
Theorem addDiagnosticMarker_adjacent (severity : DiagnosticSeverity)
    (startLine middle endLine : Z) (g : t) :
  startLine <= middle <= endLine ->
  addDiagnosticMarker severity middle endLine
    (addDiagnosticMarker severity startLine middle g)
  = addDiagnosticMarker severity startLine endLine g.
Proof.
  intros Hm. apply addDiagnosticMarker_ext; [reflexivity|].
  unfold addDiagnosticMarker. simpl.
  apply map_eq. intros k. rewrite !marker_loop_lookup.
  destruct (in_lines middle endLine k) eqn:H2;
    destruct (in_lines startLine middle k) eqn:H1;
    destruct (in_lines startLine endLine k) eqn:H;
    try reflexivity;
    rewrite ?in_lines_true_iff, ?in_lines_false_iff in *; lia.
Qed.

Lemma addDiagnosticMarker_adjacent_witness :
  let g := mk (<[4 := Error]> ∅) None false in
  2 <= 4 <= 7 /\
  addDiagnosticMarker Warning 4 7 (addDiagnosticMarker Warning 2 4 g)
  = addDiagnosticMarker Warning 2 7 g.
Proof.
  assert (H : 2 <= 4 <= 7) by lia.
  split; [exact H|].
  exact (addDiagnosticMarker_adjacent Warning 2 4 7
           (mk (<[4 := Error]> ∅) None false) H).
Defined.

(** X15.  After [clearDiagnosticMarkers] the gutter forgets every earlier
    diagnostic: a diagnostic added next marks exactly its own lines, each
    with its own severity, whatever was marked before the clearing. *)
Theorem clear_then_add (severity : DiagnosticSeverity)
    (startLine endLine : Z) (g : t) (i : Z) :
  let g' := addDiagnosticMarker severity startLine endLine
              (clearDiagnosticMarkers g) in
  m_diagnosticMarkers (clearDiagnosticMarkers g) !! i = None /\
  (m_diagnosticMarkers g' !! i = Some severity <-> startLine <= i < endLine) /\
  (m_diagnosticMarkers g' !! i = None <-> ~ (startLine <= i < endLine)) /\
  fixedWidth g' = fixedWidth g.
Proof.
  cbv zeta. unfold addDiagnosticMarker, clearDiagnosticMarkers. simpl.
  rewrite marker_loop_lookup, lookup_empty. simpl.
  destruct (in_lines startLine endLine i) eqn:Hi.
  - apply in_lines_true_iff in Hi.
    split; [reflexivity|]. split; [tauto|]. split; [|reflexivity].
    split; [discriminate|contradiction].
  - apply in_lines_false_iff in Hi.
    split; [reflexivity|]. split; [|split; [tauto|reflexivity]].
    split; [discriminate|contradiction].
Qed.

(** *** Font weights and the gutter width, further *)

(** X16.  Fed Qt's own numeric weights, [intToFontWeight] gives back the
    weight it was given only up to [Bold]: in the numbering of Qt 6 it
    sends 800 ([ExtraBold]) to [Bold] and 900 ([Black]) to [ExtraBold],
    and every weight in the numbering of Qt 5 (0 to 87) to [Thin]. *)
Theorem intToFontWeight_of_qt_weights (w : QFontWeight) :
  (intToFontWeight (Weight.to_int_qt6 w) = w <-> Weight.le w Bold) /\
  intToFontWeight (Weight.to_int_qt6 ExtraBold) = Bold /\
  intToFontWeight (Weight.to_int_qt6 Black) = ExtraBold /\
  intToFontWeight (Weight.to_int_qt5 w) = Thin.
Proof.
  split; [|split; [reflexivity|split; [reflexivity|]]].
  - unfold Weight.le.
    destruct w; simpl; split; intros H;
      solve [reflexivity | lia | discriminate H].
  - destruct w; reflexivity.
Qed.

(** The width [updateEditorLineCount] fixes, when it is an [int]. *)
Lemma updateEditorLineCount_fixedWidth (g : t) (adv count : Z) :
  0 <= adv -> 15 + adv * 10 <= Int.INT_MAX -> 1 <= count <= Int.INT_MAX ->
  fixedWidth (updateEditorLineCount (Some (mkParent count adv)) g)
  = Some (15 + adv * Z.of_nat (String.length (QString.number count))).
Proof.
  intros Hadv Hfit Hcount.
  pose proof (QStringFacts.number_length_int count ltac:(lia)) as Hd.
  unfold updateEditorLineCount. simpl.
  unfold Int.add, Int.mul. unfold Int.INT_MAX in Hfit.
  rewrite (IntFacts.wrap_small (adv * _))
    by (unfold Int.in_range, Int.INT_MIN, Int.INT_MAX; nia).
  rewrite IntFacts.wrap_small
    by (unfold Int.in_range, Int.INT_MIN, Int.INT_MAX; nia).
  reflexivity.
Qed.

(** X17.  With a font whose digits have a positive advance, one more
    block changes the gutter width exactly when the new block count is a
    power of ten. *)
Theorem gutter_widens_at_powers_of_ten (g : t) (adv count : Z) :
  0 < adv -> 15 + adv * 10 <= Int.INT_MAX ->
  1 <= count -> count + 1 <= Int.INT_MAX ->
  fixedWidth (updateEditorLineCount (Some (mkParent (count + 1) adv)) g)
    <> fixedWidth (updateEditorLineCount (Some (mkParent count adv)) g)
  <-> exists k : Z, 0 <= k /\ count + 1 = 10 ^ k.
Proof.
  intros Hadv Hfit Hc Hmax.
  rewrite !updateEditorLineCount_fixedWidth by lia.
  set (d := Z.of_nat (String.length (QString.number count))).
  set (d' := Z.of_nat (String.length (QString.number (count + 1)))).
  assert (Hd : QString.decimal_digits count d)
    by (apply QStringFacts.number_length_digits; lia).
  assert (Hd' : QString.decimal_digits (count + 1) d')
    by (apply QStringFacts.number_length_digits; lia).
  assert (Hmono : d <= d')
    by (apply (QStringFacts.decimal_digits_mono count (count + 1));
        [exact Hd | exact Hd' | lia]).
  destruct Hd as [Hd1 [Hlo Hhi]], Hd' as [Hd1' [Hlo' Hhi']].
  split.
  - intros Hne.
    assert (Hlt : d < d').
    { destruct (Z.eq_dec d d') as [Heq|]; [|lia].
      exfalso. apply Hne. rewrite Heq. reflexivity. }
    assert (Hpow : 10 ^ d <= 10 ^ (d' - 1))
      by (apply Z.pow_le_mono_r; lia).
    exists d. split; lia.
  - intros (k & Hk & Heq) Hsame.
    assert (Hdd : d = d') by (injection Hsame as Hs; nia).
    clearbody d d'. subst d'.
    destruct (Z_le_gt_dec k (d - 1)) as [Hle|Hgt].
    + assert (10 ^ k <= 10 ^ (d - 1)) by (apply Z.pow_le_mono_r; lia). lia.
    + assert (10 ^ d <= 10 ^ k) by (apply Z.pow_le_mono_r; lia). lia.
Qed.

Lemma gutter_widens_at_powers_of_ten_witness :
  let g := mk ∅ None false in
  (0 < 8 /\ 15 + 8 * 10 <= Int.INT_MAX /\ 1 <= 99 /\ 99 + 1 <= Int.INT_MAX) /\
  fixedWidth (updateEditorLineCount (Some (mkParent (99 + 1) 8)) g)
    <> fixedWidth (updateEditorLineCount (Some (mkParent 99 8)) g).
Proof.
  assert (H1 : 0 < 8) by lia.
  assert (H2 : 15 + 8 * 10 <= Int.INT_MAX) by (unfold Int.INT_MAX; lia).
  assert (H3 : 1 <= 99) by lia.
  assert (H4 : 99 + 1 <= Int.INT_MAX) by (unfold Int.INT_MAX; lia).
  split; [tauto|].
  apply (proj2 (gutter_widens_at_powers_of_ten (mk ∅ None false) 8 99
                  H1 H2 H3 H4)).
  exists 2. split; [lia|reflexivity].
Defined.

(** *** The paint loop, further *)

Lemma heights_sum_nonneg (l : list Block) :
  Forall (fun b => 0 <= height b) l -> 0 <= heights_sum l.
Proof. induction 1 as [|b l Hb _ IH]; simpl; lia. Qed.

Lemma heights_sum_take (l : list Block) (k : nat) :
  Forall (fun b => 0 <= height b) l ->
  0 <= heights_sum (take k l) <= heights_sum l.
Proof.
  intros Hl. revert k.
  induction Hl as [|b l Hb Hl IH]; intros [|k]; simpl; try lia.
  - pose proof (heights_sum_nonneg l Hl). lia.
  - specialize (IH k). lia.
Qed.

(** With heights that are not negative and tops that stay within [int],
    the loop paints exactly the visible blocks that meet the dirty
    rectangle. *)
Lemma paint_loop_iff (g : t) (inp : PaintInput) :
  forall (rest : list Block) (block : nat) (blockNumber top : Z)
         (n : nat) (cmds : list PaintCmd),
  blockNumber = Z.of_nat block ->
  Z.of_nat (block + length rest) <= Int.INT_MAX ->
  Forall (fun b => 0 <= height b) rest ->
  Int.in_range top -> top + heights_sum rest <= Int.INT_MAX ->
  In (n, cmds)
     (paint_loop g inp rest block blockNumber top
        (Int.add top (head_height rest)))
  <-> exists (k : nat) (b : Block),
        n = (block + k)%nat /\ rest !! k = Some b /\ isVisible b = true /\
        top + heights_sum (take k rest) <= dirtyBottom inp /\
        dirtyTop inp <= top + heights_sum (take k rest) + height b /\
        cmds = paint_block g inp (Z.of_nat n) (top + heights_sum (take k rest)).
Proof.
  induction rest as [|b rest' IH];
    intros block blockNumber top n cmds Hbn Hlen Hh Htop Hfit.
  - simpl. split; [intros []|]. intros (k & b & _ & Hk & _). discriminate Hk.
  - inversion Hh as [|? ? Hb Hh']; subst.
    pose proof (heights_sum_nonneg rest' Hh') as Hsum.
    simpl heights_sum in Hfit. simpl length in Hlen.
    assert (Hbottom : Int.add top (height b) = top + height b).
    { unfold Int.add. apply IntFacts.wrap_small.
      unfold Int.in_range, Int.INT_MIN, Int.INT_MAX in *. lia. }
    assert (Hnext : Int.add (Z.of_nat block) 1 = Z.of_nat (S block)).
    { unfold Int.add. rewrite IntFacts.wrap_small; [lia|].
      unfold Int.in_range, Int.INT_MIN, Int.INT_MAX in *. lia. }
    simpl paint_loop. simpl head_height. rewrite Hbottom, Hnext.
    destruct (Z.leb_spec top (dirtyBottom inp)) as [Hdirty|Hdirty].
    + rewrite in_app_iff.
      rewrite (IH (S block) (Z.of_nat (S block)) (top + height b) n cmds);
        [| reflexivity | lia | exact Hh'
         | unfold Int.in_range, Int.INT_MIN, Int.INT_MAX in *; lia | lia].
      split.
      * intros [Hrow|(k & b' & Hn & Hk & Hvis & Hlo & Hhi & Hcmds)].
        -- destruct (isVisible b) eqn:Hvis; [|destruct Hrow].
           destruct (Z.geb_spec (top + height b) (dirtyTop inp)) as [Hge|Hlt];
             [|destruct Hrow].
           destruct Hrow as [Hrow|[]]. injection Hrow as <- <-.
           exists O, b. simpl. rewrite Nat.add_0_r, Z.add_0_r.
           repeat split; solve [assumption | lia].
        -- exists (S k), b'. simpl.
           replace (top + (height b + heights_sum (take k rest')))
             with (top + height b + heights_sum (take k rest')) by lia.
           repeat split; solve [assumption | lia].
      * intros (k & b' & Hn & Hk & Hvis & Hlo & Hhi & Hcmds).
        destruct k as [|k].
        -- left. simpl in Hk. injection Hk as <-.
           simpl in Hlo, Hhi, Hcmds. rewrite Z.add_0_r in *.
           rewrite Nat.add_0_r in Hn. subst n.
           rewrite Hvis. simpl.
           destruct (Z.geb_spec (top + height b) (dirtyTop inp)) as [Hge|Hlt];
             [|lia].
           left. rewrite Hcmds. reflexivity.
        -- right. exists k, b'. simpl in Hk, Hlo, Hhi, Hcmds.
           replace (top + (height b + heights_sum (take k rest')))
             with (top + height b + heights_sum (take k rest'))
             in Hlo, Hhi, Hcmds by lia.
           repeat split; solve [assumption | lia].
    + split; [intros []|].
      intros (k & b' & _ & _ & _ & Hlo & _).
      pose proof (heights_sum_take (b :: rest') k Hh) as Hk. lia.
Qed.

(** X18.  Which blocks [paintEvent] paints.  When no block has a
    negative height and the tops stay within [int], the painted blocks
    are exactly the visible blocks, from the first visible block on,
    whose top is not below the dirty rectangle and whose bottom is not
    above it; each is painted at its own top with its own number. *)
Theorem paintEvent_paints_dirty_blocks (g : t) (doc : list Block)
    (inp : PaintInput) (n : nat) (cmds : list PaintCmd) :
  Z.of_nat (length doc) <= Int.INT_MAX ->
  Forall (fun b => 0 <= height b) doc ->
  Int.in_range (firstTop inp) ->
  firstTop inp + heights_sum (drop (firstVisibleBlock inp) doc)
    <= Int.INT_MAX ->
  In (n, cmds) (painted_blocks g doc inp)
  <-> (firstVisibleBlock inp <= n)%nat /\
      exists b : Block,
        doc !! n = Some b /\ isVisible b = true /\
        block_top doc inp n <= dirtyBottom inp /\
        dirtyTop inp <= block_top doc inp n + height b /\
        cmds = paint_block g inp (Z.of_nat n) (block_top doc inp n).
Proof.
  intros Hlen Hh Htop Hfit.
  unfold painted_blocks, block_top.
  set (first := firstVisibleBlock inp) in *.
  destruct (doc !! first) as [b0|] eqn:Hfirst.
  - assert (Hlt : (first < length doc)%nat)
      by (apply lookup_lt_is_Some; eauto).
    rewrite paint_loop_iff;
      [| unfold blockNumber_of; rewrite Hfirst; reflexivity
       | rewrite length_drop; lia
       | apply Forall_drop; exact Hh
       | exact Htop | exact Hfit].
    split.
    + intros (k & b & Hn & Hk & Hrest). subst n.
      rewrite lookup_drop in Hk.
      replace (first + k - first)%nat with k by lia.
      split; [lia|]. exists b. split; [exact Hk|exact Hrest].
    + intros (Hge & b & Hk & Hrest).
      exists (n - first)%nat, b.
      rewrite lookup_drop.
      replace (first + (n - first))%nat with n by lia.
      split; [lia|]. split; [exact Hk|exact Hrest].
  - apply lookup_ge_None in Hfirst.
    rewrite drop_ge by exact Hfirst. simpl.
    split; [intros []|].
    intros (Hge & b & Hk & _).
    apply lookup_lt_Some in Hk. lia.
Qed.

(** Three blocks of height 16 and a dirty rectangle that covers only the
    second: the second block, and nothing else, is painted. *)
Lemma paintEvent_paints_dirty_blocks_witness :
  let doc := [mkBlock true 16; mkBlock true 16; mkBlock true 16] in
  let g := mk ∅ None false in
  let inp := mkPaintInput 20 25 200 0 0 40 16 0 in
  In (1%nat, paint_block g inp 1 16) (painted_blocks g doc inp) /\
  ~ In (0%nat, paint_block g inp 0 0) (painted_blocks g doc inp).
Proof.
  cbv zeta.
  set (doc := [mkBlock true 16; mkBlock true 16; mkBlock true 16]).
  set (g := mk ∅ None false).
  set (inp := mkPaintInput 20 25 200 0 0 40 16 0).
  assert (Hlen : Z.of_nat (length doc) <= Int.INT_MAX)
    by (unfold Int.INT_MAX; simpl; lia).
  assert (Hh : Forall (fun b => 0 <= height b) doc)
    by (repeat constructor; simpl; lia).
  assert (Htop : Int.in_range (firstTop inp))
    by (unfold Int.in_range, Int.INT_MIN, Int.INT_MAX; simpl; lia).
  assert (Hfit : firstTop inp + heights_sum (drop (firstVisibleBlock inp) doc)
                 <= Int.INT_MAX)
    by (unfold Int.INT_MAX; simpl; lia).
  split.
  - apply (proj2 (paintEvent_paints_dirty_blocks g doc inp 1
                    (paint_block g inp 1 16) Hlen Hh Htop Hfit)).
    split; [simpl; lia|].
    exists (mkBlock true 16). unfold block_top. simpl.
    repeat split; lia.
  - intros Hin.
    apply (proj1 (paintEvent_paints_dirty_blocks g doc inp 0
                    (paint_block g inp 0 0) Hlen Hh Htop Hfit)) in Hin.
    destruct Hin as (_ & b & Hb & _ & _ & Hbottom & _).
    injection Hb as <-. unfold block_top in Hbottom. simpl in Hbottom. lia.
Defined.

Lemma paint_loop_from_block (g : t) (inp : PaintInput) :
  forall (rest : list Block) (block : nat) (blockNumber top bottom : Z)
         (n : nat) (cmds : list PaintCmd),
  In (n, cmds) (paint_loop g inp rest block blockNumber top bottom) ->
  (block <= n)%nat.
Proof.
  induction rest as [|b rest' IH];
    intros block blockNumber top bottom n cmds Hin; simpl in Hin.
  - destruct Hin.
  - destruct (top <=? dirtyBottom inp); [|destruct Hin].
    apply in_app_iff in Hin. destruct Hin as [Hrow|Hrec].
    + destruct (isVisible b && (bottom >=? dirtyTop inp)); [|destruct Hrow].
      destruct Hrow as [Hrow|[]]. injection Hrow as <- _. lia.
    + apply IH in Hrec. lia.
Qed.

Lemma paint_loop_sorted (g : t) (inp : PaintInput) :
  forall (rest : list Block) (block : nat) (blockNumber top bottom : Z),
  StronglySorted Nat.lt
    (map fst (paint_loop g inp rest block blockNumber top bottom)).
Proof.
  induction rest as [|b rest' IH]; intros block blockNumber top bottom;
    simpl.
  - constructor.
  - destruct (top <=? dirtyBottom inp); [|constructor].
    destruct (isVisible b && (bottom >=? dirtyTop inp)); simpl;
      [|apply IH].
    constructor; [apply IH|].
    apply List.Forall_forall. intros n Hn.
    apply in_map_iff in Hn. destruct Hn as ([n' cmds] & <- & Hin).
    apply paint_loop_from_block in Hin. simpl. lia.
Qed.

(** X19.  [paintEvent] goes down the document once: the painted blocks
    come in strictly increasing order of position, none before the first
    visible block, so no block is painted twice. *)
Theorem paintEvent_order (g : t) (doc : list Block) (inp : PaintInput) :
  StronglySorted Nat.lt (map fst (painted_blocks g doc inp)) /\
  List.NoDup (map fst (painted_blocks g doc inp)) /\
  Forall (fun n => (firstVisibleBlock inp <= n)%nat)
    (map fst (painted_blocks g doc inp)).
Proof.
  assert (Hs : StronglySorted Nat.lt (map fst (painted_blocks g doc inp)))
    by apply paint_loop_sorted.
  split; [exact Hs|]. split.
  - induction Hs as [|n l Hs IH Hall]; constructor; [|exact IH].
    intros Hin. rewrite List.Forall_forall in Hall. apply Hall in Hin. lia.
  - apply List.Forall_forall. intros n Hn.
    apply in_map_iff in Hn. destruct Hn as ([n' cmds] & <- & Hin).
    apply paint_loop_from_block in Hin. exact Hin.
Qed.

Lemma paint_block_marker (g : t) (inp : PaintInput) (blockNumber top : Z)
    (y h : Z) (s : DiagnosticSeverity) :
  In (FillMarker y h s) (paint_block g inp blockNumber top) <->
  m_diagnosticMarkers g !! blockNumber = Some s /\
  y = top /\ h = lineHeight inp.
Proof.
  unfold paint_block. rewrite in_app_iff. split.
  - intros [Hm|Hd].
    + destruct (m_diagnosticMarkers g !! blockNumber); simpl in Hm.
      * destruct Hm as [Hm|[]]. injection Hm as <- <- <-. auto.
      * destruct Hm.
    + destruct (cursorBlockNumber inp =? blockNumber); simpl in Hd;
        repeat match goal with
               | H : _ \/ _ |- _ => destruct H
               | H : False |- _ => destruct H
               | H : _ = FillMarker _ _ _ |- _ => discriminate H
               end.
  - intros (Hm & -> & ->). left. rewrite Hm. left. reflexivity.
Qed.

Lemma paint_block_text_top (g : t) (inp : PaintInput) (blockNumber top : Z)
    (x y w h : Z) (text : string) :
  In (DrawText x y w h text) (paint_block g inp blockNumber top) <->
  x = -5 /\ y = top /\ w = lineWidth inp /\ h = lineHeight inp /\
  text = QString.number (Int.add blockNumber 1).
Proof.
  unfold paint_block. rewrite in_app_iff. split.
  - intros [Hm|Hd].
    + destruct (m_diagnosticMarkers g !! blockNumber); simpl in Hm.
      * destruct Hm as [Hm|[]]. discriminate Hm.
      * destruct Hm.
    + destruct (cursorBlockNumber inp =? blockNumber); simpl in Hd;
        repeat match goal with
               | H : _ \/ _ |- _ => destruct H
               | H : False |- _ => destruct H
               | H : _ = DrawText _ _ _ _ _ |- _ =>
                   first [discriminate H | injection H as <- <- <- <- <-]
               end; auto.
  - intros (-> & -> & -> & -> & ->). right.
    destruct (cursorBlockNumber inp =? blockNumber); simpl; auto.
Qed.

(** What is sent to the painter for a painted block is what
    [paint_block] issues for the block's own number. *)
Lemma painted_blocks_cmds (g : t) (doc : list Block) (inp : PaintInput)
    (n : nat) (cmds : list PaintCmd) :
  Z.of_nat (length doc) <= Int.INT_MAX ->
  In (n, cmds) (painted_blocks g doc inp) ->
  (n < length doc)%nat /\
  exists top : Z, cmds = paint_block g inp (Z.of_nat n) top.
Proof.
  intros Hlen Hrow. unfold painted_blocks in Hrow.
  set (block := firstVisibleBlock inp) in *.
  destruct (doc !! block) as [b0|] eqn:Hfirst.
  - assert (Hlt : (block < length doc)%nat)
      by (apply lookup_lt_is_Some; eauto).
    apply paint_loop_rows in Hrow.
    + destruct Hrow as (b & top' & Hle & Hlk & _ & Hcmds).
      rewrite lookup_drop in Hlk. apply lookup_lt_Some in Hlk.
      split; [lia|]. exists top'. exact Hcmds.
    + unfold blockNumber_of. rewrite Hfirst. reflexivity.
    + rewrite length_drop. lia.
  - apply lookup_ge_None in Hfirst.
    rewrite drop_ge in Hrow by exact Hfirst. destruct Hrow.
Qed.

(** X20.  A marker is painted for a block exactly when the block's line
    carries a marker: it has that marker's severity, the height of a
    line, and the same top as the block's number. *)
Theorem paintEvent_markers (g : t) (doc : list Block) (inp : PaintInput)
    (n : nat) (cmds : list PaintCmd) (y h : Z) (s : DiagnosticSeverity) :
  Z.of_nat (length doc) <= Int.INT_MAX ->
  In (n, cmds) (painted_blocks g doc inp) ->
  In (FillMarker y h s) cmds <->
  m_diagnosticMarkers g !! Z.of_nat n = Some s /\
  h = lineHeight inp /\
  In (DrawText (-5) y (lineWidth inp) (lineHeight inp)
        (QString.number (Z.of_nat n + 1))) cmds.
Proof.
  intros Hlen Hrow.
  destruct (painted_blocks_cmds g doc inp n cmds Hlen Hrow)
    as (Hn & top & ->).
  assert (Hadd : Int.add (Z.of_nat n) 1 = Z.of_nat n + 1).
  { unfold Int.add. apply IntFacts.wrap_small.
    unfold Int.in_range, Int.INT_MIN, Int.INT_MAX in *. lia. }
  rewrite paint_block_marker, paint_block_text_top, Hadd.
  split.
  - intros (Hm & -> & ->). repeat split; assumption.
  - intros (Hm & -> & _ & -> & _). repeat split; assumption.
Qed.

Lemma paintEvent_markers_witness :
  let doc := [mkBlock true 16; mkBlock false 0; mkBlock true 16] in
  let g := mk (<[2 := Error]> ∅) None false in
  let inp := mkPaintInput 0 100 200 0 0 40 16 2 in
  let cmds := paint_block g inp 2 16 in
  In (2%nat, cmds) (painted_blocks g doc inp) /\
  In (FillMarker 16 16 Error) cmds.
Proof.
  cbv zeta.
  set (doc := [mkBlock true 16; mkBlock false 0; mkBlock true 16]).
  set (g := mk (<[2 := Error]> ∅) None false).
  set (inp := mkPaintInput 0 100 200 0 0 40 16 2).
  assert (Hlen : Z.of_nat (length doc) <= Int.INT_MAX)
    by (unfold Int.INT_MAX; simpl; lia).
  assert (Hrow : In (2%nat, paint_block g inp 2 16) (painted_blocks g doc inp))
    by (vm_compute; right; left; reflexivity).
  split; [exact Hrow|].
  apply (proj2 (paintEvent_markers g doc inp 2 (paint_block g inp 2 16)
                  16 16 Error Hlen Hrow)).
  split; [reflexivity|]. split; [reflexivity|].
  vm_compute. right. right. right. left. reflexivity.
Defined.

(** X21.  Diagnostics reach the gutter's painting.  After
    [addDiagnosticMarker] every painted block among the diagnostic's
    lines gets a marker of at least the diagnostic's severity; after
    [clearDiagnosticMarkers] no painted block gets a marker. *)
Theorem diagnostics_painted (severity : DiagnosticSeverity)
    (startLine endLine : Z) (g : t) (doc : list Block) (inp : PaintInput)
    (n : nat) (cmds : list PaintCmd) :
  Z.of_nat (length doc) <= Int.INT_MAX ->
  (In (n, cmds)
      (painted_blocks (addDiagnosticMarker severity startLine endLine g)
         doc inp) ->
   startLine <= Z.of_nat n < endLine ->
   exists (y : Z) (s : DiagnosticSeverity),
     In (FillMarker y (lineHeight inp) s) cmds /\ Severity.le severity s) /\
  (In (n, cmds) (painted_blocks (clearDiagnosticMarkers g) doc inp) ->
   forall y h s, ~ In (FillMarker y h s) cmds).
Proof.
  intros Hlen. split.
  - intros Hrow Hin.
    destruct (painted_blocks_cmds _ doc inp n cmds Hlen Hrow)
      as (_ & top & ->).
    exists top, (merged (m_diagnosticMarkers g !! Z.of_nat n) severity).
    split; [|apply merged_le_new].
    apply paint_block_marker. split; [|split; reflexivity].
    unfold addDiagnosticMarker. simpl.
    apply marker_loop_inside. exact Hin.
  - intros Hrow y h s Hmark.
    destruct (painted_blocks_cmds _ doc inp n cmds Hlen Hrow)
      as (_ & top & ->).
    apply paint_block_marker in Hmark. destruct Hmark as [Hm _].
    unfold clearDiagnosticMarkers in Hm. simpl in Hm.
    rewrite lookup_empty in Hm. discriminate Hm.
Qed.

Lemma diagnostics_painted_witness :
  let doc := [mkBlock true 16; mkBlock true 16; mkBlock true 16] in
  let g := mk ∅ None false in
  let inp := mkPaintInput 0 100 200 0 0 40 16 0 in
  let g' := addDiagnosticMarker Warning 1 2 g in
  In (1%nat, paint_block g' inp 1 16) (painted_blocks g' doc inp) /\
  exists (y : Z) (s : DiagnosticSeverity),
    In (FillMarker y 16 s) (paint_block g' inp 1 16) /\
    Severity.le Warning s.
Proof.
  cbv zeta.
  set (doc := [mkBlock true 16; mkBlock true 16; mkBlock true 16]).
  set (g := mk ∅ None false).
  set (inp := mkPaintInput 0 100 200 0 0 40 16 0).
  assert (Hlen : Z.of_nat (length doc) <= Int.INT_MAX)
    by (unfold Int.INT_MAX; simpl; lia).
  assert (Hrow : In (1%nat, paint_block (addDiagnosticMarker Warning 1 2 g)
                              inp 1 16)
                   (painted_blocks (addDiagnosticMarker Warning 1 2 g)
                      doc inp))
    by (vm_compute; right; left; reflexivity).
  split; [exact Hrow|].
  apply (proj1 (diagnostics_painted Warning 1 2 g doc inp 1 _ Hlen) Hrow).
  simpl. lia.
Defined.

Lemma drawn_texts_app (cmds1 cmds2 : list PaintCmd) : forall pen font : bool,
  drawn_texts pen font (cmds1 ++ cmds2) =
  drawn_texts pen font cmds1 ++
  drawn_texts (fst (painter_after pen font cmds1))
              (snd (painter_after pen font cmds1)) cmds2.
Proof.
  induction cmds1 as [|c cmds1 IH]; intros pen font; [reflexivity|].
  destruct c; simpl; rewrite IH; reflexivity.
Qed.

Lemma painter_after_app (cmds1 cmds2 : list PaintCmd) : forall pen font : bool,
  painter_after pen font (cmds1 ++ cmds2) =
  painter_after (fst (painter_after pen font cmds1))
                (snd (painter_after pen font cmds1)) cmds2.
Proof.
  induction cmds1 as [|c cmds1 IH]; intros pen font; [reflexivity|].
  destruct c; simpl; rewrite IH; reflexivity.
Qed.

(** One block, entered with the font of the other lines: its number is
    drawn with the pen and the font of the current line exactly when the
    cursor is in it, and the font of the other lines is back in force
    afterwards. *)
Lemma paint_block_painter (g : t) (inp : PaintInput) (blockNumber top : Z)
    (pen : bool) :
  let current := cursorBlockNumber inp =? blockNumber in
  drawn_texts pen false (paint_block g inp blockNumber top)
    = [(QString.number (Int.add blockNumber 1), current, current)] /\
  painter_after pen false (paint_block g inp blockNumber top)
    = (current, false).
Proof.
  cbv zeta. unfold paint_block.
  rewrite drawn_texts_app, painter_after_app.
  destruct (m_diagnosticMarkers g !! blockNumber); simpl;
    destruct (cursorBlockNumber inp =? blockNumber); simpl;
    split; reflexivity.
Qed.

(** A painted block is a visible block of the document, and what is sent
    to the painter for it is what [paint_block] issues for its own
    position. *)
Lemma painted_blocks_visible (g : t) (doc : list Block) (inp : PaintInput)
    (n : nat) (cmds : list PaintCmd) :
  Z.of_nat (length doc) <= Int.INT_MAX ->
  In (n, cmds) (painted_blocks g doc inp) ->
  exists (b : Block) (top : Z),
    doc !! n = Some b /\ isVisible b = true /\
    cmds = paint_block g inp (Z.of_nat n) top.
Proof.
  intros Hlen Hrow. unfold painted_blocks in Hrow.
  set (block := firstVisibleBlock inp) in *.
  destruct (doc !! block) as [b0|] eqn:Hfirst.
  - assert (Hlt : (block < length doc)%nat)
      by (apply lookup_lt_is_Some; eauto).
    apply paint_loop_rows in Hrow.
    + destruct Hrow as (b & top' & Hle & Hlk & Hvis & Hcmds).
      rewrite lookup_drop in Hlk.
      replace (block + (n - block))%nat with n in Hlk by lia.
      exists b, top'. repeat split; assumption.
    + unfold blockNumber_of. rewrite Hfirst. reflexivity.
    + rewrite length_drop. lia.
  - apply lookup_ge_None in Hfirst.
    rewrite drop_ge in Hrow by exact Hfirst. destruct Hrow.
Qed.

(** Whatever the pen and the font, [paint_block] draws one text: the
    number after the block number. *)
Lemma paint_block_one_text (g : t) (inp : PaintInput) (blockNumber top : Z)
    (pen font : bool) :
  map (fun d => fst (fst d))
      (drawn_texts pen font (paint_block g inp blockNumber top))
  = [QString.number (Int.add blockNumber 1)].
Proof.
  unfold paint_block. rewrite drawn_texts_app.
  destruct (m_diagnosticMarkers g !! blockNumber); simpl;
    destruct (cursorBlockNumber inp =? blockNumber); reflexivity.
Qed.

(** C5.  The gutter paints 1-based line numbers.  Every block
    [paintEvent] paints is a visible block of the document, and for the
    block at zero-based position [n] the painter is sent a text, right
    aligned in the gutter at the block's top, which is the decimal
    representation of [n + 1]; it is the one text drawn for that block,
    whether or not the cursor is in it. *)
Theorem paintEvent_line_numbers (g : t) (doc : list Block)
    (inp : PaintInput) (n : nat) (cmds : list PaintCmd) :
  Z.of_nat (length doc) <= Int.INT_MAX ->
  In (n, cmds) (painted_blocks g doc inp) ->
  (exists b : Block, doc !! n = Some b /\ isVisible b = true) /\
  (exists top : Z,
     In (DrawText (-5) top (lineWidth inp) (lineHeight inp)
           (QString.number (Z.of_nat n + 1))) cmds /\
     In (DrawText (-5) top (lineWidth inp) (lineHeight inp)
           (QString.number (Z.of_nat n + 1))) (paintEvent g doc inp)) /\
  (forall pen font : bool,
     map (fun d => fst (fst d)) (drawn_texts pen font cmds)
     = [QString.number (Z.of_nat n + 1)]) /\
  (forall (x y w h : Z) (text : string),
     In (DrawText x y w h text) cmds ->
     text = QString.number (Z.of_nat n + 1) /\
     In (DrawText x y w h text) (paintEvent g doc inp)) /\
  QString.value (QString.number (Z.of_nat n + 1)) = Z.of_nat n + 1.
Proof.
  intros Hlen Hrow.
  assert (Hsent : forall c : PaintCmd, In c cmds -> In c (paintEvent g doc inp)).
  { intros c Hc. unfold paintEvent. right. apply in_app_iff. right. right.
    apply in_concat. exists cmds. split; [|exact Hc].
    apply in_map_iff. exists (n, cmds). split; [reflexivity|exact Hrow]. }
  destruct (painted_blocks_visible g doc inp n cmds Hlen Hrow)
    as (b & top & Hb & Hvis & Hcmds).
  assert (Hn : (n < length doc)%nat) by (apply lookup_lt_is_Some; eauto).
  assert (Hadd : Int.add (Z.of_nat n) 1 = Z.of_nat n + 1).
  { unfold Int.add. apply IntFacts.wrap_small.
    unfold Int.in_range, Int.INT_MIN, Int.INT_MAX in *. lia. }
  assert (Hdraw : In (DrawText (-5) top (lineWidth inp) (lineHeight inp)
                        (QString.number (Z.of_nat n + 1))) cmds).
  { rewrite Hcmds. apply paint_block_text_top. rewrite Hadd.
    repeat split; reflexivity. }
  split; [exists b; split; assumption|].
  split; [exists top; split; [exact Hdraw|apply Hsent; exact Hdraw]|].
  split; [|split].
  - intros pen font. rewrite Hcmds, paint_block_one_text, Hadd. reflexivity.
  - intros x y w h text Htext. split; [|apply Hsent; exact Htext].
    rewrite Hcmds in Htext. apply paint_block_text in Htext.
    rewrite Hadd in Htext. exact Htext.
  - apply QStringFacts.number_value.
Qed.

(** Three blocks, the middle one hidden, the cursor in the first and an
    Error on the third: the third block, which does not hold the cursor,
    is painted as line 3. *)
Lemma paintEvent_line_numbers_witness :
  let doc := [mkBlock true 16; mkBlock false 0; mkBlock true 16] in
  let g := mk (<[2 := Error]> ∅) None false in
  let inp := mkPaintInput 0 100 200 0 0 40 16 0 in
  let cmds := [FillMarker 16 16 Error; SetPen false;
               DrawText (-5) 16 40 16 "3"] in
  Z.of_nat (length doc) <= Int.INT_MAX /\
  In (2%nat, cmds) (painted_blocks g doc inp) /\
  (exists top : Z, In (DrawText (-5) top 40 16 "3") cmds) /\
  drawn_texts true true cmds <> [] /\
  QString.value "3" = 3.
Proof.
  cbv zeta.
  set (doc := [mkBlock true 16; mkBlock false 0; mkBlock true 16]).
  set (g := mk (<[2 := Error]> ∅) None false).
  set (inp := mkPaintInput 0 100 200 0 0 40 16 0).
  set (cmds := [FillMarker 16 16 Error; SetPen false;
                DrawText (-5) 16 40 16 "3"]).
  assert (Hlen : Z.of_nat (length doc) <= Int.INT_MAX)
    by (unfold Int.INT_MAX; simpl; lia).
  assert (Hrow : In (2%nat, cmds) (painted_blocks g doc inp))
    by (vm_compute; right; left; reflexivity).
  destruct (paintEvent_line_numbers g doc inp 2 cmds Hlen Hrow)
    as (_ & (top & Hdraw & _) & Hone & _ & Hv).
  split; [exact Hlen|]. split; [exact Hrow|].
  split; [exists top; exact Hdraw|]. split; [|exact Hv].
  intros Hnil. specialize (Hone true true). rewrite Hnil in Hone.
  discriminate Hone.
Defined.

Lemma painted_rows_painter (g : t) (inp : PaintInput)
    (rows : list (nat * list PaintCmd)) : forall pen : bool,
  Forall (fun row => exists top : Z,
            snd row = paint_block g inp (Z.of_nat (fst row)) top) rows ->
  drawn_texts pen false (concat (map snd rows))
    = map (fun row =>
             (QString.number (Int.add (Z.of_nat (fst row)) 1),
              cursorBlockNumber inp =? Z.of_nat (fst row),
              cursorBlockNumber inp =? Z.of_nat (fst row))) rows /\
  snd (painter_after pen false (concat (map snd rows))) = false.
Proof.
  induction rows as [|[n cmds] rows IH]; intros pen Hrows.
  - split; reflexivity.
  - inversion Hrows as [|? ? [top Hcmds] Hrest]; subst.
    simpl in Hcmds. subst cmds. simpl map. simpl concat.
    rewrite drawn_texts_app, painter_after_app.
    destruct (paint_block_painter g inp (Z.of_nat n) top pen) as [Ht Ha].
    rewrite Ht, Ha. simpl fst. simpl snd.
    destruct (IH (cursorBlockNumber inp =? Z.of_nat n) Hrest) as [IHt IHa].
    rewrite IHt, IHa. split; reflexivity.
Qed.

(** X22.  Pen and font of the line numbers.  Whatever pen and font the
    painter starts with, [paintEvent] draws one number per painted block,
    in order; the number of the block that holds the cursor is drawn with
    the pen and the font of the current line, every other number with
    those of the other lines; and the font of the other lines is in force
    when [paintEvent] is done. *)
Theorem paintEvent_pen_and_font (g : t) (doc : list Block)
    (inp : PaintInput) (pen font : bool) :
  Z.of_nat (length doc) <= Int.INT_MAX ->
  drawn_texts pen font (paintEvent g doc inp)
    = map (fun row =>
             (QString.number (Z.of_nat (fst row) + 1),
              cursorBlockNumber inp =? Z.of_nat (fst row),
              cursorBlockNumber inp =? Z.of_nat (fst row)))
          (painted_blocks g doc inp) /\
  snd (painter_after pen font (paintEvent g doc inp)) = false.
Proof.
  intros Hlen.
  assert (Hrows : Forall (fun row => exists top : Z,
                    snd row = paint_block g inp (Z.of_nat (fst row)) top)
                    (painted_blocks g doc inp)).
  { apply List.Forall_forall. intros [n cmds] Hin.
    destruct (painted_blocks_cmds g doc inp n cmds Hlen Hin) as (_ & top & ->).
    exists top. reflexivity. }
  assert (Hnum : forall row, In row (painted_blocks g doc inp) ->
            Int.add (Z.of_nat (fst row)) 1 = Z.of_nat (fst row) + 1).
  { intros [n cmds] Hin.
    destruct (painted_blocks_cmds g doc inp n cmds Hlen Hin) as (Hn & _).
    simpl. unfold Int.add. apply IntFacts.wrap_small.
    unfold Int.in_range, Int.INT_MIN, Int.INT_MAX in *. lia. }
  unfold paintEvent.
  assert (Hpre : forall rest : list PaintCmd,
            drawn_texts pen font
              (FillBackground (dirtyTop inp) (dirtyBottom inp) ::
               (if viewportBottom inp <? dirtyBottom inp
                then [SetClipBottom (viewportBottom inp)] else []) ++
               SetFont false :: rest)
            = drawn_texts pen false rest /\
            painter_after pen font
              (FillBackground (dirtyTop inp) (dirtyBottom inp) ::
               (if viewportBottom inp <? dirtyBottom inp
                then [SetClipBottom (viewportBottom inp)] else []) ++
               SetFont false :: rest)
            = painter_after pen false rest).
  { intros rest. destruct (viewportBottom inp <? dirtyBottom inp);
      simpl; split; reflexivity. }
  destruct (Hpre (concat (map snd (painted_blocks g doc inp)))) as [Ht Ha].
  rewrite Ht, Ha.
  destruct (painted_rows_painter g inp (painted_blocks g doc inp) pen Hrows)
    as [Hd Hf].
  split; [|exact Hf].
  rewrite Hd. apply map_ext_in. intros row Hin.
  rewrite (Hnum row Hin). reflexivity.
Qed.

(** Three visible blocks, the cursor in the second: only "2" is drawn
    with the pen and the font of the current line. *)
Lemma paintEvent_pen_and_font_witness :
  let doc := [mkBlock true 16; mkBlock true 16; mkBlock true 16] in
  let g := mk ∅ None false in
  let inp := mkPaintInput 0 100 200 0 0 40 16 1 in
  Z.of_nat (length doc) <= Int.INT_MAX /\
  drawn_texts true true (paintEvent g doc inp)
    = [("1"%string, false, false); ("2"%string, true, true);
       ("3"%string, false, false)].
Proof.
  cbv zeta.
  set (doc := [mkBlock true 16; mkBlock true 16; mkBlock true 16]).
  set (g := mk ∅ None false).
  set (inp := mkPaintInput 0 100 200 0 0 40 16 1).
  assert (Hlen : Z.of_nat (length doc) <= Int.INT_MAX)
    by (unfold Int.INT_MAX; simpl; lia).
  split; [exact Hlen|].
  rewrite (proj1 (paintEvent_pen_and_font g doc inp true true Hlen)).
  reflexivity.
Defined.

End QLineNumberAreaSpec.

